(** * Downstream query fan-out: pkg/querier/queryrange/downstreamer.go

    A shallow embedding of the request translator, the response translator,
    the dispatcher factory and the bounded dispatcher [For], together with
    the properties the specification states about them.

    Conventions.
    - Go's [int], [int64] and [uint32] values are [Z]; the only arithmetic the
      file does on them is [Duration.Milliseconds] (a truncating division)
      and loop counters that stay below a slice length or a channel
      capacity, so no wrap-around can occur.
    - A Go function returning [(T, error)] returns a pair whose second
      component is [option error], [None] for a nil error; where a call
      can panic its result is an [outcome].
    - The goroutines of [For] are the components of a transition system
      whose moves are chosen by a schedule; a property of [For] is a
      property of every schedule.
    - Data that the file only copies (timestamps, float64 sample values,
      statistics, headers, log streams, shard descriptors, the handler) is
      kept abstract as section variables. *)

From Stdlib Require Import ZArith Lia.
From stdpp Require Import base option list strings.

Local Open Scope Z_scope.

(** ** Outcomes of a call *)

(** What a call to a Go function does: it returns its results, or it
    panics. *)
Inductive outcome (A : Type) : Type :=
| Returns (a : A)
| Panics (msg : string).
Arguments Returns {A} a.
Arguments Panics {A} msg.

(** ** The request translator *)

Module Request.

(** [logproto.Direction]. *)
Inductive Direction := FORWARD | BACKWARD.

(** [logql.QueryRangeType]. *)
Inductive QueryRangeType := InstantType | RangeType.

(** [time.Duration] is a count of nanoseconds; [Milliseconds] is Go's
    truncating integer division by 1e6. *)
Definition Duration := Z.
Definition Milliseconds (d : Duration) : Z := Z.quot d 1000000.

Section WithTypes.
(** [time.Time] and [logql.Shards], with the method [Shards.Encode], are
    declared outside this file, as is [logql.GetRangeType] below; the
    translator is a function of them. *)
Variable Time : Type.
Variable Shards : Type.
Variable Encode : Shards -> list string.

(** A [logql.Params] value, as the answers of the interface methods the
    translator calls: [Query()], [Limit()], [Start()], [End()], [Step()],
    [Interval()] and [Direction()]. *)
Record Params := {
  Query : string;
  Limit : Z;
  Start : Time;
  End_ : Time;
  Step : Duration;
  Interval : Duration;
  Dir : Direction
}.

Variable GetRangeType : Params -> QueryRangeType.

Definition QueryRangeType_eqb (a b : QueryRangeType) : bool :=
  match a, b with
  | InstantType, InstantType | RangeType, RangeType => true
  | _, _ => false
  end.

Record LokiInstantRequest := {
  iQuery : string;
  iLimit : Z;
  iTimeTs : Time;
  iDirection : Direction;
  iPath : string;
  iShards : list string
}.

Record LokiRequest := {
  rQuery : string;
  rLimit : Z;
  rStep : Z;
  rInterval : Z;
  rStartTs : Time;
  rEndTs : Time;
  rDirection : Direction;
  rPath : string;
  rShards : list string
}.

(** [queryrangebase.Request], restricted to the two implementations the
    translator builds. *)
Inductive Req :=
| Instant (r : LokiInstantRequest)
| Range (r : LokiRequest).

Definition ParamsToLokiRequest (params : Params) (shards : Shards) : Req :=
  if QueryRangeType_eqb (GetRangeType params) InstantType then
    Instant {|
      iQuery := Query params;
      iLimit := Limit params;
      iTimeTs := Start params;
      iDirection := Dir params;
      iPath := "/loki/api/v1/query";
      iShards := Encode shards
    |}
  else
    Range {|
      rQuery := Query params;
      rLimit := Limit params;
      rStep := Milliseconds (Step params);
      rInterval := Milliseconds (Interval params);
      rStartTs := Start params;
      rEndTs := End_ params;
      rDirection := Dir params;
      rPath := "/loki/api/v1/query_range";
      rShards := Encode shards
    |}.

Definition is_instant (r : Req) : bool :=
  match r with Instant _ => true | Range _ => false end.

End WithTypes.

Arguments Query {Time} _.
Arguments Limit {Time} _.
Arguments Start {Time} _.
Arguments End_ {Time} _.
Arguments Step {Time} _.
Arguments Interval {Time} _.
Arguments Dir {Time} _.
Arguments Instant {Time} r.
Arguments Range {Time} r.
Arguments is_instant {Time} r.
Arguments ParamsToLokiRequest {Time Shards} Encode GetRangeType params shards.

End Request.

(** ** The response translator *)

Module Response.

(** Modelled from the spec: the constant [loghttp.ResultTypeVector] is
    declared in package loghttp; the specification names the shape it
    stands for, "vector". *)
Definition ResultTypeVector : string := "vector".

(** [queryrangebase.LabelAdapter] and [labels.Label] have the same two
    fields; [labels.Label(l)] converts one into the other. *)
Record LabelAdapter := { laName : string; laValue : string }.
Record Label := { Name : string; Value : string }.
Definition to_Label (l : LabelAdapter) : Label :=
  {| Name := laName l; Value := laValue l |}.

Section WithTypes.
Variable float64 : Type.
Variable Stream : Type.      (* logproto.Stream *)
Variable Stats : Type.       (* stats.Result *)
Variable Headers : Type.     (* []*definitions.PrometheusResponseHeader *)
Variable zeroStats : Stats.
Variable nilHeaders : Headers.

(** [logproto.LegacySample]. *)
Record LegacySample := { sValue : float64; TimestampMs : Z }.

(** [queryrangebase.SampleStream]. *)
Record SampleStream := {
  Labels : list LabelAdapter;
  Samples : list LegacySample
}.

(** [promql.Point], [promql.Sample], [promql.Series]. *)
Record Point := { T : Z; V : float64 }.
Record Sample := { sPoint : Point; sMetric : list Label }.
Record Series := { Metric : list Label; Points : list Point }.

(** [parser.Value], restricted to the three payloads the translator
    builds. *)
Inductive PValue :=
| Streams (xs : list Stream)
| Vector (xs : list Sample)
| Matrix (xs : list Series).

(** [logqlmodel.Result]; [Data] is an interface value, nil in the zero
    [Result]. *)
Record Result := {
  Statistics : Stats;
  Data : option PValue;
  rHeaders : Headers
}.

Definition zeroResult : Result :=
  {| Statistics := zeroStats; Data := None; rHeaders := nilHeaders |}.

(** [*LokiResponse], with the fields the translator reads. *)
Record LokiResponse := {
  lError : string;
  lErrorType : string;
  lResult : list Stream;            (* Data.Result *)
  lStatistics : Stats;
  lHeaders : Headers
}.

(** [*LokiPromResponse]; the fields of the embedded
    [*queryrangebase.PrometheusResponse] are inlined. *)
Record LokiPromResponse := {
  pError : string;                  (* Response.Error *)
  pErrorType : string;              (* Response.ErrorType *)
  pResultType : string;             (* Response.Data.ResultType *)
  pResult : list SampleStream;      (* Response.Data.Result *)
  pStatistics : Stats;
  pHeaders : Headers
}.

(** [queryrangebase.Response]: the two dynamic types the type switch
    recognises, and any other dynamic type, of which only the name that
    the verb [%T] prints matters. Both recognised types are pointers, and
    [LokiPromResponse] holds its [Response] through a pointer: [OfLoki] and
    [OfProm] are the values behind which every pointer is set; [NilLoki]
    and [NilProm] are the nil pointers of the two types, and
    [PromNilResponse] is a [LokiPromResponse] whose [Response] is nil. The
    last three carry, like [Other], what their [GetHeaders] answers. *)
Inductive Resp :=
| OfLoki (r : LokiResponse)
| OfProm (r : LokiPromResponse)
| Other (type_name : string) (h : Headers)
| NilLoki (h : Headers)
| NilProm (h : Headers)
| PromNilResponse (st : Stats) (h : Headers).

(** Modelled from the spec: the method [GetHeaders] of the response types
    is declared with them, outside this file; it gives the headers the
    response carries. *)
Definition GetHeaders (resp : Resp) : Headers :=
  match resp with
  | OfLoki r => lHeaders r
  | OfProm r => pHeaders r
  | Other _ h | NilLoki h | NilProm h | PromNilResponse _ h => h
  end.

Definition to_Point (s : LegacySample) : Point :=
  {| T := TimestampMs s; V := sValue s |}.

Definition sampleStreamToMatrix (streams : list SampleStream) : PValue :=
  Matrix (map (fun stream =>
                 {| Metric := map to_Label (Labels stream);
                    Points := map to_Point (Samples stream) |})
              streams).

(** The loop of [sampleStreamToVector]: [stream.Samples[0]] panics with an
    index out of range when the stream has no sample. *)
Fixpoint vector_of (streams : list SampleStream) : option (list Sample) :=
  match streams with
  | [] => Some []
  | stream :: rest =>
      match Samples stream with
      | [] => None
      | s0 :: _ =>
          match vector_of rest with
          | Some xs =>
              Some ({| sPoint := to_Point s0;
                       sMetric := map to_Label (Labels stream) |} :: xs)
          | None => None
          end
      end
  end.

Definition index_out_of_range : string :=
  "runtime error: index out of range [0] with length 0".

Definition nil_dereference : string :=
  "runtime error: invalid memory address or nil pointer dereference".

Definition sampleStreamToVector (streams : list SampleStream)
  : outcome PValue :=
  match vector_of streams with
  | Some xs => Returns (Vector xs)
  | None => Panics index_out_of_range
  end.

(** [fmt.Errorf("%s: %s", ty, msg)] and [fmt.Errorf("cannot decode (%T)",
    resp)]; an error is its message. *)
Definition errorf_type_msg (ty msg : string) : string :=
  ty +:+ ": " +:+ msg.
Definition errorf_cannot_decode (type_name : string) : string :=
  "cannot decode (" +:+ type_name +:+ ")".

Definition is_empty (s : string) : bool :=
  match s with EmptyString => true | _ => false end.

Definition ResponseToResult (resp : Resp)
  : outcome (Result * option string) :=
  match resp with
  | OfLoki r =>
      if negb (is_empty (lError r)) then
        Returns (zeroResult,
                 Some (errorf_type_msg (lErrorType r) (lError r)))
      else
        Returns ({| Statistics := lStatistics r;
                    Data := Some (Streams (lResult r));
                    rHeaders := GetHeaders resp |}, None)
  | OfProm r =>
      if negb (is_empty (pError r)) then
        Returns (zeroResult,
                 Some (errorf_type_msg (pErrorType r) (pError r)))
      else if String.eqb (pResultType r) ResultTypeVector then
        match sampleStreamToVector (pResult r) with
        | Returns v =>
            Returns ({| Statistics := pStatistics r;
                        Data := Some v;
                        rHeaders := GetHeaders resp |}, None)
        | Panics msg => Panics msg
        end
      else
        Returns ({| Statistics := pStatistics r;
                    Data := Some (sampleStreamToMatrix (pResult r));
                    rHeaders := GetHeaders resp |}, None)
  | Other type_name _ =>
      Returns (zeroResult, Some (errorf_cannot_decode type_name))
  | NilLoki _ =>
      (* r.Error, l.215, with r nil *)
      Panics nil_dereference
  | NilProm _ | PromNilResponse _ _ =>
      (* r.Response.Error, l.232, with r or r.Response nil *)
      Panics nil_dereference
  end.

End WithTypes.

End Response.

(** ** The dispatcher factory and the bounded dispatcher *)

Module Dispatcher.

Local Open Scope nat_scope.

Definition DefaultDownstreamConcurrency : Z := 128.

(** A [chan struct{}]. Its elements carry no data, so a buffered channel
    is its capacity together with the number of queued elements. *)
Record chan := { chan_cap : nat; chan_len : nat }.

(** [make(chan struct{}, p)]. *)
Definition make_chan (p : Z) : chan :=
  {| chan_cap := Z.to_nat p; chan_len := 0 |}.

(** [c <- struct{}{}]; [None] when the buffer is full and the send would
    block. *)
Definition send (c : chan) : option chan :=
  if chan_len c <? chan_cap c
  then Some {| chan_cap := chan_cap c; chan_len := S (chan_len c) |}
  else None.

(** [<-c]; [None] when the buffer is empty and the receive would block. *)
Definition recv (c : chan) : option chan :=
  match chan_len c with
  | 0 => None
  | S k => Some {| chan_cap := chan_cap c; chan_len := k |}
  end.

(** [for i := 0; i < p; i++ { locks <- struct{}{} }], as the [k] sends it
    performs; [None] when one of them would block. *)
Fixpoint fill (k : nat) (c : chan) : option chan :=
  match k with
  | 0 => Some c
  | S k' => match send c with Some c' => fill k' c' | None => None end
  end.

Section Factory.
Variable Ctx : Type.         (* context.Context *)
Variable Handler : Type.     (* queryrangebase.Handler *)
Variable Err : Type.
(** [tenant.TenantID]. *)
Variable TenantID : Ctx -> string * option Err.

Record DownstreamHandler := {
  MaxQueryParallelism : Ctx -> string -> Z;   (* limits.MaxQueryParallelism *)
  next : Handler
}.

Record instance := {
  parallelism : Z;
  locks : chan;
  handler : Handler
}.

(** The bound [p] that [Downstreamer] settles on. *)
Definition resolve_parallelism (h : DownstreamHandler) (ctx : Ctx) : Z :=
  let p := DefaultDownstreamConcurrency in
  match TenantID ctx with
  | (user, None) =>
      let x := MaxQueryParallelism h ctx user in
      if (0 <? x)%Z then x else p
  | (_, Some _) => p
  end.

(** [None] when filling the pool would block. *)
Definition Downstreamer (h : DownstreamHandler) (ctx : Ctx)
  : option instance :=
  let p := resolve_parallelism h ctx in
  match fill (Z.to_nat p) (make_chan p) with
  | Some locks =>
      Some {| parallelism := p; locks := locks; handler := next h |}
  | None => None
  end.
End Factory.

Arguments parallelism {Handler} _.
Arguments locks {Handler} _.
Arguments handler {Handler} _.
Arguments MaxQueryParallelism {Ctx Handler} _ _ _.
Arguments next {Ctx Handler} _.
Arguments resolve_parallelism {Ctx Handler Err} TenantID h ctx.
Arguments Downstreamer {Ctx Handler Err} TenantID h ctx.

(** *** [For] as a transition system

    [For] runs three kinds of goroutines: the caller (the collector loop),
    the supervisor that hands out tokens, and one worker per dispatched
    index. They meet at the token pool [in.locks], at the unbuffered
    result channel [ch] and at the [Done] channel of the derived context.
    A state holds the program point and the local variables of each
    goroutine; an action is one scheduling decision: which goroutine moves
    and, at a [select], which ready case it takes. *)
Section For.
Variable Q : Type.           (* logql.DownstreamQuery *)
Variable R : Type.           (* logqlmodel.Result *)
Variable E : Type.           (* error values *)
Variable zeroR : R.          (* logqlmodel.Result{} *)
Variable ctx_err : E.        (* ctx.Err() once Done is closed *)
Variable fn : Q -> R * option E.
Variable queries : list Q.

(** The goroutine [go func(i int) {...}(i)] of one index. *)
Inductive worker :=
| NotSpawned                            (* no goroutine for this index *)
| Calling                               (* inside fn(queries[i]) *)
| Selecting (res : R) (err : option E)  (* at the select, response built *)
| Releasing (sent : bool)               (* select left, by [ch <- response]
                                           when [sent]; deferred send due *)
| Exited (sent : bool).

Record state := {
  cancelled : bool;            (* ctx.Done() is closed *)
  pool : chan;                 (* in.locks *)
  sup : nat;                   (* the supervisor's loop variable i *)
  workers : list worker;       (* one entry per index *)
  col : nat;                   (* the collector's loop variable i *)
  results : list R;
  ret : option (option (list R) * option E)   (* what For returned *)
}.

Inductive action :=
| ParentCancel            (* the caller's context is cancelled *)
| SupDone                 (* supervisor select: case <-ctx.Done() *)
| SupLock                 (* supervisor select: case <-in.locks *)
| FnReturn (i : nat)      (* fn(queries[i]) returns *)
| WorkerDone (i : nat)    (* worker select: case <-ctx.Done() *)
| Send (i : nat)          (* worker select: case ch <- response, met by
                             the collector's case resp := <-ch *)
| Unlock (i : nat)        (* the deferred in.locks <- struct{}{} *)
| ColDone                 (* collector select: case <-ctx.Done() *)
| ColReturn.              (* collector loop is over: return results, nil *)

Definition For_init (in_locks : chan) : state :=
  {| cancelled := false;
     pool := in_locks;
     sup := 0;
     workers := replicate (length queries) NotSpawned;
     col := 0;
     results := replicate (length queries) zeroR;
     ret := None |}.

Definition set_worker (i : nat) (w : worker) (s : state) : state :=
  {| cancelled := cancelled s; pool := pool s; sup := sup s;
     workers := <[i := w]> (workers s);
     col := col s; results := results s; ret := ret s |}.

Definition set_pool (c : chan) (s : state) : state :=
  {| cancelled := cancelled s; pool := c; sup := sup s;
     workers := workers s;
     col := col s; results := results s; ret := ret s |}.

Definition set_sup (i : nat) (s : state) : state :=
  {| cancelled := cancelled s; pool := pool s; sup := i;
     workers := workers s;
     col := col s; results := results s; ret := ret s |}.

(** [return l, e] in [For]; the deferred [cancel()] runs. *)
Definition do_return (l : option (list R)) (e : option E) (s : state)
  : state :=
  {| cancelled := true; pool := pool s; sup := sup s;
     workers := workers s;
     col := col s; results := results s; ret := Some (l, e) |}.

(** [results[i] = res] and the loop's [i++]. *)
Definition store (i : nat) (res : R) (s : state) : state :=
  {| cancelled := cancelled s; pool := pool s; sup := sup s;
     workers := workers s;
     col := S (col s); results := <[i := res]> (results s);
     ret := ret s |}.

(** One move. By line of downstreamer.go:
    - [SupDone], l.129-130, and [SupLock], l.131-132, are the two cases of
      the supervisor's select, inside [for i := 0; i < len(queries); i++];
    - [FnReturn] is l.138-143, [WorkerDone] l.147, [Send] l.148 together
      with the collector's l.160-164, [Unlock] l.134-136;
    - [ColDone] is l.158-159 and [ColReturn] l.167; both run the deferred
      [cancel()] of l.122.
    A move that the state does not allow gives [None]. *)
Definition step (s : state) (a : action) : option state :=
  let n := length queries in
  match a with
  | ParentCancel =>
      if cancelled s then None
      else Some {| cancelled := true; pool := pool s; sup := sup s;
                   workers := workers s; col := col s;
                   results := results s; ret := ret s |}
  | SupDone =>
      (* [break] leaves the select only; the loop goes on with i++ *)
      if (sup s <? n) && cancelled s
      then Some (set_sup (S (sup s)) s)
      else None
  | SupLock =>
      if sup s <? n then
        match recv (pool s) with
        | Some c =>
            Some (set_sup (S (sup s))
                    (set_worker (sup s) Calling (set_pool c s)))
        | None => None
        end
      else None
  | FnReturn i =>
      match workers s !! i, queries !! i with
      | Some Calling, Some q =>
          Some (set_worker i (Selecting (fst (fn q)) (snd (fn q))) s)
      | _, _ => None
      end
  | WorkerDone i =>
      match workers s !! i with
      | Some (Selecting _ _) =>
          if cancelled s then Some (set_worker i (Releasing false) s)
          else None
      | _ => None
      end
  | Send i =>
      match workers s !! i, ret s with
      | Some (Selecting res err), None =>
          if col s <? n then
            match err with
            | Some e =>
                Some (do_return None (Some e)
                        (set_worker i (Releasing true) s))
            | None =>
                Some (store i res (set_worker i (Releasing true) s))
            end
          else None
      | _, _ => None
      end
  | Unlock i =>
      match workers s !! i with
      | Some (Releasing b) =>
          match send (pool s) with
          | Some c => Some (set_worker i (Exited b) (set_pool c s))
          | None => None
          end
      | _ => None
      end
  | ColDone =>
      match ret s with
      | None =>
          if (col s <? n) && cancelled s
          then Some (do_return None (Some ctx_err) s)
          else None
      | Some _ => None
      end
  | ColReturn =>
      match ret s with
      | None =>
          if col s <? n then None
          else Some (do_return (Some (results s)) None s)
      | Some _ => None
      end
  end.

(** A schedule, run from a state; [None] when it asks for a move that
    is not possible. *)
Fixpoint run (acts : list action) (s : state) : option state :=
  match acts with
  | [] => Some s
  | a :: acts' =>
      match step s a with
      | Some s' => run acts' s'
      | None => None
      end
  end.

(** The states of a call [in.For(ctx, queries, fn)]. *)
Definition For (in_locks : chan) (acts : list action) : option state :=
  run acts (For_init in_locks).

(** Sum of a weight over the workers. *)
Fixpoint total (f : worker -> nat) (ws : list worker) : nat :=
  match ws with
  | [] => 0
  | w :: ws' => f w + total f ws'
  end.

Definition is_calling (w : worker) : nat :=
  match w with Calling => 1 | _ => 0 end.

(** Number of invocations of [fn] in progress. *)
Definition executing (s : state) : nat := total is_calling (workers s).

(** [true] when the schedule never takes a token from the pool. *)
Definition is_lock (a : action) : bool :=
  match a with SupLock => true | _ => false end.

Definition is_parent_cancel (a : action) : bool :=
  match a with ParentCancel => true | _ => false end.

(** Number of token acquisitions in a schedule. *)
Definition acquisitions (acts : list action) : nat :=
  length (filter (fun a => is_lock a = true) acts).
(** *** Accounting over the states of [For] *)

(** A worker holds a token from its spawn until its deferred send. *)
Definition holds_token (w : worker) : nat :=
  match w with
  | Calling | Selecting _ _ | Releasing _ => 1
  | NotSpawned | Exited _ => 0
  end.

Definition has_sent (w : worker) : nat :=
  match w with
  | Releasing true | Exited true => 1
  | _ => 0
  end.

Definition is_selecting (w : worker) : nat :=
  match w with Selecting _ _ => 1 | _ => 0 end.

Definition is_releasing (w : worker) : nat :=
  match w with Releasing _ => 1 | _ => 0 end.

(** Moves a worker still has to make. *)
Definition steps_left (w : worker) : nat :=
  match w with
  | NotSpawned => 0
  | Calling => 3
  | Selecting _ _ => 2
  | Releasing _ => 1
  | Exited _ => 0
  end.

(** A bound on the number of moves left in the whole system. *)
Definition measure (s : state) : nat :=
  (if cancelled s then 0 else 1)
  + 4 * (length queries - sup s)
  + total steps_left (workers s)
  + match ret s with
    | None => S (length queries - col s)
    | Some _ => 0
    end.

(** What [fn] gives for every query, in order. *)
Definition expected : list R := map (fun q => fst (fn q)) queries.

Definition all_succeed : Prop :=
  forall i q, queries !! i = Some q -> snd (fn q) = None.

(** The error of the first failing response that a schedule delivers to
    the collector. *)
Fixpoint first_failure (acts : list action) : option E :=
  match acts with
  | [] => None
  | Send i :: acts' =>
      match queries !! i with
      | Some q =>
          match snd (fn q) with
          | Some e => Some e
          | None => first_failure acts'
          end
      | None => first_failure acts'
      end
  | _ :: acts' => first_failure acts'
  end.

(** The derived context is cancelled although [For] has not returned. *)
Definition cancelled_by_caller (s : state) (acts : list action) : Prop :=
  cancelled s = true \/ In ParentCancel acts.

(** The states of a call with no query: there is no worker, the pool is
    the one of the call, and the collector can only return the empty
    list. *)
Definition idle (in_locks : chan) (s : state) : Prop :=
  workers s = [] /\ results s = [] /\ pool s = in_locks /\
  (ret s = None \/ ret s = Some (Some [], None)).

(** The facts that hold in every state of a call that started with the
    pool [in_locks]. *)
Record consistent (in_locks : chan) (s : state) : Prop := {
  c_workers : length (workers s) = length queries;
  c_results : length (results s) = length queries;
  c_sup : sup s <= length queries;
  c_cap : chan_cap (pool s) = chan_cap in_locks;
  c_tokens :
    chan_len (pool s) + total holds_token (workers s) = chan_len in_locks;
  c_fresh :
    forall j, sup s <= j -> j < length queries ->
      workers s !! j = Some NotSpawned;
  c_response :
    forall i res err, workers s !! i = Some (Selecting res err) ->
      exists q, queries !! i = Some q /\ fn q = (res, err);
  c_count : ret s = None -> col s = total has_sent (workers s);
  c_stored :
    ret s = None ->
    forall i w, workers s !! i = Some w -> has_sent w = 1 ->
      exists q, queries !! i = Some q /\ snd (fn q) = None /\
                results s !! i = Some (fst (fn q));
  c_ret : forall v, ret s = Some v -> cancelled s = true;
  c_live :
    cancelled s = false ->
      (forall j, j < sup s -> workers s !! j <> Some NotSpawned) /\
      (forall i b, workers s !! i = Some (Releasing b) \/
                   workers s !! i = Some (Exited b) -> b = true)
}.

End For.

Arguments NotSpawned {R E}.
Arguments Calling {R E}.
Arguments Selecting {R E} res err.
Arguments Releasing {R E} sent.
Arguments Exited {R E} sent.
Arguments cancelled {R E} _.
Arguments pool {R E} _.
Arguments sup {R E} _.
Arguments workers {R E} _.
Arguments col {R E} _.
Arguments results {R E} _.
Arguments ret {R E} _.
Arguments For_init {Q R E} zeroR queries in_locks.
Arguments set_worker {R E} i w s.
Arguments set_pool {R E} c s.
Arguments set_sup {R E} i s.
Arguments do_return {R E} l e s.
Arguments store {R E} i res s.
Arguments step {Q R E} ctx_err fn queries s a.
Arguments run {Q R E} ctx_err fn queries acts s.
Arguments For {Q R E} zeroR ctx_err fn queries in_locks acts.
Arguments total {R E} f ws.
Arguments is_calling {R E} w.
Arguments executing {R E} s.
Arguments holds_token {R E} w.
Arguments has_sent {R E} w.
Arguments is_selecting {R E} w.
Arguments is_releasing {R E} w.
Arguments steps_left {R E} w.
Arguments measure {Q R E} queries s.
Arguments expected {Q R E} fn queries.
Arguments all_succeed {Q R E} fn queries.
Arguments first_failure {Q R E} fn queries acts.
Arguments cancelled_by_caller {R E} s acts.
Arguments idle {R E} in_locks s.
Arguments consistent {Q R E} fn queries in_locks s.

End Dispatcher.

(** ** The work function of [Downstream] *)

Module Downstream.
Import Request Response.

Section WithTypes.
Variable Time : Type.
Variable Shards : Type.
Variable float64 : Type.
Variable Stream : Type.
Variable Stats : Type.
Variable Headers : Type.
Variable zeroStats : Stats.
Variable nilHeaders : Headers.
Variable Encode : Shards -> list string.
Variable GetRangeType : Params Time -> QueryRangeType.
(** The method [WithQuery] of the request types is declared outside this
    file; the work function is a function of it. *)
Variable WithQuery : Req Time -> string -> Req Time.
(** [in.handler.Do(ctx, req)], the handler of the instance; an error is
    its message, as for [ResponseToResult]. *)
Variable Do : Req Time -> Resp float64 Stream Stats Headers * option string.

(** [logql.DownstreamQuery], with [Expr] as the string [qry.Expr.String()]
    gives. *)
Record DownstreamQuery := {
  Expr : string;
  qParams : Params Time;
  qShards : Shards
}.

(** [ParamsToLokiRequest(qry.Params, qry.Shards).WithQuery(qry.Expr.String())],
    l.94. *)
Definition request_of (qry : DownstreamQuery) : Req Time :=
  WithQuery
    (ParamsToLokiRequest Encode GetRangeType (qParams qry) (qShards qry))
    (Expr qry).

(** The closure that [Downstream] passes to [For], l.93-106. The span and
    the logger it opens and closes have no part in what it returns. *)
Definition work (qry : DownstreamQuery)
  : outcome (Result float64 Stream Stats Headers * option string) :=
  let req := request_of qry in
  match Do req with
  | (_, Some err) =>
      Returns (zeroResult float64 Stream Stats Headers zeroStats nilHeaders,
               Some err)
  | (res, None) =>
      ResponseToResult float64 Stream Stats Headers zeroStats nilHeaders res
  end.

(** [fn] is what the closure returns on each of the queries: none of the
    calls panics. [Downstream] is then [For] with [fn]. *)
Definition runs_as (queries : list DownstreamQuery)
    (fn : DownstreamQuery ->
          Result float64 Stream Stats Headers * option string) : Prop :=
  forall i q, queries !! i = Some q -> work q = Returns (fn q).

(** The response is one that [ResponseToResult] turns into an error. *)
Definition has_error (resp : Resp float64 Stream Stats Headers) : bool :=
  match resp with
  | OfLoki _ _ _ _ r => negb (is_empty (lError _ _ _ r))
  | OfProm _ _ _ _ r => negb (is_empty (pError _ _ _ r))
  | Other _ _ _ _ _ _ => true
  | NilLoki _ _ _ _ _ | NilProm _ _ _ _ _
  | PromNilResponse _ _ _ _ _ _ => false
  end.
End WithTypes.

Arguments Expr {Time Shards} _.
Arguments qParams {Time Shards} _.
Arguments qShards {Time Shards} _.
Arguments has_error {float64 Stream Stats Headers} resp.

End Downstream.

(** ** Accounting over the schedules of [For] *)

Module Ledger.
Import Dispatcher.
Local Open Scope nat_scope.

(** Number of times [fn(queries[i])] returns in a schedule. *)
Fixpoint calls (i : nat) (acts : list action) : nat :=
  match acts with
  | [] => 0
  | FnReturn j :: acts' => (if i =? j then 1 else 0) + calls i acts'
  | _ :: acts' => calls i acts'
  end.

(** 1 when the move is the return of [fn(queries[i])]. *)
Definition returns_at (i : nat) (a : action) : nat :=
  match a with
  | FnReturn j => if i =? j then 1 else 0
  | _ => 0
  end.

Section WithTypes.
Variable Q : Type.
Variable R : Type.
Variable E : Type.
Variable ctx_err : E.
Variable fn : Q -> R * option E.
Variable queries : list Q.

Definition is_spawned (w : worker R E) : nat :=
  match w with NotSpawned => 0 | _ => 1 end.

(** 1 when [fn(queries[i])] can still return: its worker is inside the
    call, or the supervisor has not reached the index yet. *)
Definition may_call (s : state R E) (i : nat) : nat :=
  match workers s !! i with
  | Some NotSpawned => if sup s <=? i then 1 else 0
  | Some Calling => 1
  | _ => 0
  end.

(** 1 when the call [fn(queries[i])] has returned. *)
Definition has_returned (s : state R E) (i : nat) : nat :=
  match workers s !! i with
  | Some (Selecting _ _) | Some (Releasing _) | Some (Exited _) => 1
  | _ => 0
  end.

(** When a list has been returned, the response of every worker has been
    delivered. *)
Definition all_delivered (s : state R E) : Prop :=
  forall rs, ret s = Some (Some rs, None) ->
    forall i w, workers s !! i = Some w -> has_sent w = 1.

(** [For] has returned, the supervisor's loop is over and every goroutine
    that was started has exited. *)
Definition settled (s : state R E) : Prop :=
  ret s <> None /\
  sup s = length queries /\
  forall i w, workers s !! i = Some w ->
    w = NotSpawned \/ exists b, w = Exited b.

(** No goroutine of the call can move. *)
Definition quiescent (s : state R E) : Prop :=
  forall a, a <> ParentCancel -> step ctx_err fn queries s a = None.
End WithTypes.

Arguments is_spawned {R E} w.
Arguments may_call {R E} s i.
Arguments has_returned {R E} s i.
Arguments all_delivered {R E} s.
Arguments settled {Q R E} queries s.
Arguments quiescent {Q R E} ctx_err fn queries s.

End Ledger.

(** * Properties *)

(** ** Request translation *)

Section RequestProperties.
Import Request.
Context {Time Shards : Type}.
Variable Encode : Shards -> list string.
Variable GetRangeType : Params Time -> QueryRangeType.

(** A duration of a whole number of milliseconds is read back exactly. *)
Lemma Milliseconds_whole (ms : Z) : Milliseconds (ms * 1000000) = ms.
Proof. unfold Milliseconds. apply Z.quot_mul. lia. Qed.

(** Sub-millisecond parts are dropped, towards zero. *)
Lemma Milliseconds_truncates (d : Duration) :
  (0 <= d -> Milliseconds d * 1000000 <= d < (Milliseconds d + 1) * 1000000)%Z.
Proof.
  intros Hd. unfold Milliseconds.
  rewrite Z.quot_div_nonneg by lia.
  pose proof (Z.div_mod d 1000000 ltac:(lia)).
  pose proof (Z.mod_pos_bound d 1000000 ltac:(lia)). lia.
Qed.

(** C8. [ParamsToLokiRequest] builds the instant request, carrying the
    single timestamp [Start], exactly when the parameters are of instant
    type, and the range request otherwise; the range request's fields
    give back start, end, step and interval in milliseconds, direction,
    limit and the encoding of the shard set. *)
Theorem ParamsToLokiRequest_variant_and_fields
    (params : Params Time) (shards : Shards) :
  (is_instant (ParamsToLokiRequest Encode GetRangeType params shards) = true
     <-> GetRangeType params = InstantType) /\
  match GetRangeType params with
  | InstantType =>
      ParamsToLokiRequest Encode GetRangeType params shards =
      Instant {| iQuery := Query params;
                 iLimit := Limit params;
                 iTimeTs := Start params;
                 iDirection := Dir params;
                 iPath := "/loki/api/v1/query";
                 iShards := Encode shards |}
  | RangeType =>
      exists r,
        ParamsToLokiRequest Encode GetRangeType params shards = Range r /\
        rStartTs _ r = Start params /\
        rEndTs _ r = End_ params /\
        rStep _ r = Z.quot (Step params) 1000000 /\
        rInterval _ r = Z.quot (Interval params) 1000000 /\
        rDirection _ r = Dir params /\
        rLimit _ r = Limit params /\
        rShards _ r = Encode shards /\
        rQuery _ r = Query params /\
        rPath _ r = "/loki/api/v1/query_range"
  end.
Proof.
  unfold ParamsToLokiRequest.
  destruct (GetRangeType params) eqn:Hty; simpl.
  - split; [tauto | reflexivity].
  - split; [split; discriminate |].
    eexists; split; [reflexivity |]. simpl. unfold Milliseconds. tauto.
Qed.
End RequestProperties.

(** ** Response translation *)

Section ResponseProperties.
Import Response.
Context {float64 Stream Stats Headers : Type}.
Variable zeroStats : Stats.
Variable nilHeaders : Headers.

Local Abbreviation SampleStream := (SampleStream float64).
Local Abbreviation ResponseToResult := (ResponseToResult float64 Stream Stats Headers zeroStats nilHeaders).
Local Abbreviation zeroResult := (zeroResult float64 Stream Stats Headers zeroStats nilHeaders).

(** The entry that [sampleStreamToVector] builds from a stream and its
    first sample, and the series that [sampleStreamToMatrix] builds. *)
Lemma vector_of_Some (streams : list SampleStream) :
  Forall (fun st => Samples _ st <> []) streams ->
  exists xs,
    vector_of float64 streams = Some xs /\
    length xs = length streams /\
    forall i st, streams !! i = Some st ->
      exists s0,
        head (Samples _ st) = Some s0 /\
        xs !! i =
          Some {| sPoint := {| T := TimestampMs _ s0; V := sValue _ s0 |};
                  sMetric := map (fun l => {| Name := laName l;
                                              Value := laValue l |})
                                 (Labels _ st) |}.
Proof.
  induction 1 as [| st rest Hst _ IH]; simpl.
  - exists []. repeat split. intros i st Hi. discriminate.
  - destruct IH as (xs & -> & Hlen & Hxs).
    destruct (Samples _ st) as [| s0 more] eqn:Hs; [congruence |].
    eexists. split; [reflexivity |]. split; [simpl; lia |].
    intros [| i] st' Hi; simpl in *.
    + injection Hi as <-. rewrite Hs. exists s0. split; reflexivity.
    + apply Hxs, Hi.
Qed.

Lemma vector_of_None (streams : list SampleStream) :
  Exists (fun st => Samples _ st = []) streams ->
  vector_of float64 streams = None.
Proof.
  induction 1 as [st rest Hst | st rest _ IH]; simpl.
  - rewrite Hst. reflexivity.
  - rewrite IH. destruct (Samples _ st); reflexivity.
Qed.

Lemma samples_dichotomy (streams : list SampleStream) :
  Forall (fun st => Samples _ st <> []) streams \/
  Exists (fun st => Samples _ st = []) streams.
Proof.
  induction streams as [| st rest [IH | IH]].
  - left. constructor.
  - destruct (Samples _ st) eqn:Hs.
    + right. constructor. exact Hs.
    + left. constructor; [congruence | exact IH].
  - right. constructor 2. exact IH.
Qed.

Lemma Forall_not_Exists (streams : list SampleStream) :
  Forall (fun st => Samples _ st <> []) streams ->
  Exists (fun st => Samples _ st = []) streams -> False.
Proof.
  induction 1 as [| st rest Hst _ IH]; intros Hex;
    inversion Hex; subst; auto.
Qed.

Lemma lookup_map {A B : Type} (f : A -> B) (l : list A) (i : nat) :
  map f l !! i = option_map f (l !! i).
Proof.
  revert i. induction l as [| a l IH]; intros [| i]; simpl; auto.
Qed.

(** The three ways a call on an error-free sample-stream response ends. *)
Lemma ResponseToResult_prom (r : LokiPromResponse float64 Stats Headers) :
  pError _ _ _ r = EmptyString ->
  (pResultType _ _ _ r = "vector" /\
   Exists (fun st => Samples _ st = []) (pResult _ _ _ r) /\
   ResponseToResult (OfProm _ _ _ _ r) = Panics index_out_of_range)
  \/
  (pResultType _ _ _ r = "vector" /\
   Forall (fun st => Samples _ st <> []) (pResult _ _ _ r) /\
   exists xs,
     vector_of float64 (pResult _ _ _ r) = Some xs /\
     ResponseToResult (OfProm _ _ _ _ r) =
       Returns ({| Statistics := pStatistics _ _ _ r;
                   Data := Some (Vector _ _ xs);
                   rHeaders := pHeaders _ _ _ r |}, None))
  \/
  (pResultType _ _ _ r <> "vector" /\
   ResponseToResult (OfProm _ _ _ _ r) =
     Returns ({| Statistics := pStatistics _ _ _ r;
                 Data := Some (sampleStreamToMatrix _ _ (pResult _ _ _ r));
                 rHeaders := pHeaders _ _ _ r |}, None)).
Proof.
  intros Herr. unfold Response.ResponseToResult. rewrite Herr. simpl.
  destruct (String.eqb_spec (pResultType _ _ _ r) ResultTypeVector) as [Hv | Hv].
  - unfold sampleStreamToVector.
    destruct (samples_dichotomy (pResult _ _ _ r)) as [Hall | Hex].
    + right; left. destruct (vector_of_Some _ Hall) as (xs & Hxs & _).
      rewrite Hxs. repeat split; auto. exists xs. split; reflexivity.
    + left. rewrite (vector_of_None _ Hex). repeat split; auto.
  - right; right. split; [exact Hv | reflexivity].
Qed.

(** C6, as the code has it. [ResponseToResult] returns an error exactly
    when the response is of an unrecognised type or carries a non-empty
    error message: the message is [<ErrorType>: <Error>] for the two
    recognised types and [cannot decode (<type>)] for any other. In the
    remaining cases it returns a result and no error, except that the call
    panics on a sample-stream response declared as a vector in which some
    stream has no sample, on a nil pointer of a recognised type, and on a
    sample-stream response whose [Response] pointer is nil. *)
Theorem ResponseToResult_error_cases (resp : Resp float64 Stream Stats Headers) :
  match resp with
  | OfLoki _ _ _ _ r =>
      (lError _ _ _ r <> EmptyString /\
       ResponseToResult resp =
         Returns (zeroResult,
                  Some (lErrorType _ _ _ r +:+ ": " +:+ lError _ _ _ r)))
      \/
      (lError _ _ _ r = EmptyString /\
       exists res, ResponseToResult resp = Returns (res, None))
  | OfProm _ _ _ _ r =>
      (pError _ _ _ r <> EmptyString /\
       ResponseToResult resp =
         Returns (zeroResult,
                  Some (pErrorType _ _ _ r +:+ ": " +:+ pError _ _ _ r)))
      \/
      (pError _ _ _ r = EmptyString /\
       (pResultType _ _ _ r <> "vector" \/
        Forall (fun st => Samples _ st <> []) (pResult _ _ _ r)) /\
       exists res, ResponseToResult resp = Returns (res, None))
      \/
      (pError _ _ _ r = EmptyString /\
       pResultType _ _ _ r = "vector" /\
       Exists (fun st => Samples _ st = []) (pResult _ _ _ r) /\
       exists msg, ResponseToResult resp = Panics msg)
  | Other _ _ _ _ type_name _ =>
      ResponseToResult resp =
        Returns (zeroResult, Some ("cannot decode (" +:+ type_name +:+ ")"))
  | NilLoki _ _ _ _ _ | NilProm _ _ _ _ _ | PromNilResponse _ _ _ _ _ _ =>
      ResponseToResult resp =
        Panics "runtime error: invalid memory address or nil pointer dereference"
  end.
Proof.
  destruct resp as [r | r | type_name h | h | h | st h]; try reflexivity.
  - unfold Response.ResponseToResult.
    destruct (lError _ _ _ r) eqn:He; simpl.
    + right. split; [reflexivity | eexists; reflexivity].
    + left. split; [discriminate | reflexivity].
  - destruct (pError _ _ _ r) eqn:He.
    + destruct (ResponseToResult_prom r He)
        as [(Hv & Hex & Hp) | [(Hv & Hall & xs & _ & Hr) | (Hv & Hr)]].
      * right; right. repeat split; auto. eexists; exact Hp.
      * right; left. repeat split; auto. eexists; exact Hr.
      * right; left. repeat split; auto. eexists; exact Hr.
    + left. split; [discriminate |].
      unfold Response.ResponseToResult. rewrite He. reflexivity.
Qed.

(** C7, as the code has it. On an error-free sample-stream response
    declared as a vector in which every stream has a sample, the result is
    a vector with one entry per stream, in stream order, made of the
    stream's labels and its first sample; on one declared as anything else
    it is a matrix with one series per stream, in stream order, made of the
    stream's labels and all its samples as points, in sample order. *)
Theorem ResponseToResult_vector_or_matrix
    (r : LokiPromResponse float64 Stats Headers) :
  pError _ _ _ r = EmptyString ->
  (pResultType _ _ _ r = "vector" ->
   Forall (fun st => Samples _ st <> []) (pResult _ _ _ r) ->
   exists res xs,
     ResponseToResult (OfProm _ _ _ _ r) = Returns (res, None) /\
     Data _ _ _ _ res = Some (Vector _ _ xs) /\
     length xs = length (pResult _ _ _ r) /\
     forall i st, pResult _ _ _ r !! i = Some st ->
       exists s0,
         head (Samples _ st) = Some s0 /\
         xs !! i =
           Some {| sPoint := {| T := TimestampMs _ s0; V := sValue _ s0 |};
                   sMetric := map (fun l => {| Name := laName l;
                                               Value := laValue l |})
                                  (Labels _ st) |}) /\
  (pResultType _ _ _ r <> "vector" ->
   exists res xs,
     ResponseToResult (OfProm _ _ _ _ r) = Returns (res, None) /\
     Data _ _ _ _ res = Some (Matrix _ _ xs) /\
     length xs = length (pResult _ _ _ r) /\
     forall i st, pResult _ _ _ r !! i = Some st ->
       exists x,
         xs !! i = Some x /\
         Metric _ x = map (fun l => {| Name := laName l; Value := laValue l |})
                          (Labels _ st) /\
         length (Points _ x) = length (Samples _ st) /\
         forall j s, Samples _ st !! j = Some s ->
           Points _ x !! j =
             Some {| T := TimestampMs _ s; V := sValue _ s |}).
Proof.
  intros Herr.
  destruct (ResponseToResult_prom r Herr)
    as [(Hv & Hex & Hp) | [(Hv & Hall & xs & Hxs & Hr) | (Hv & Hr)]].
  - split; [| congruence].
    intros _ Hall. destruct (Forall_not_Exists _ Hall Hex).
  - split; [| congruence].
    intros _ _. destruct (vector_of_Some _ Hall) as (xs' & Hxs' & Hlen & Hpt).
    assert (xs' = xs) as -> by congruence.
    eexists; exists xs. split; [exact Hr |]. simpl. auto.
  - split; [congruence |].
    intros _. eexists; eexists. split; [exact Hr |]. simpl.
    split; [reflexivity |]. split; [apply length_map |].
    intros i st Hi. rewrite lookup_map, Hi. simpl.
    eexists; split; [reflexivity |]. simpl.
    split; [reflexivity |]. split; [apply length_map |].
    intros j s Hj. rewrite lookup_map, Hj. reflexivity.
Qed.

(** C10, as the code has it. On an error-free sample-stream response
    declared as a vector,
    [ResponseToResult] returns, and then without error, exactly when every
    stream has at least one sample; when some stream has none, reading its
    first sample panics with an index out of range and nothing is
    returned. *)
Theorem ResponseToResult_vector_total_iff_sampled
    (r : LokiPromResponse float64 Stats Headers) :
  pError _ _ _ r = EmptyString ->
  pResultType _ _ _ r = "vector" ->
  ((exists res, ResponseToResult (OfProm _ _ _ _ r) = Returns (res, None))
     <-> Forall (fun st => Samples _ st <> []) (pResult _ _ _ r)) /\
  (ResponseToResult (OfProm _ _ _ _ r) =
     Panics "runtime error: index out of range [0] with length 0"
     <-> Exists (fun st => Samples _ st = []) (pResult _ _ _ r)) /\
  (forall res err, ResponseToResult (OfProm _ _ _ _ r) <> Returns (res, Some err)).
Proof.
  intros Herr Hvec.
  destruct (ResponseToResult_prom r Herr)
    as [(Hv & Hex & Hp) | [(Hv & Hall & xs & Hxs & Hr) | (Hv & Hr)]];
    [| | congruence].
  - rewrite Hp. split; [split | split; [split |]].
    + intros [res Hres]. discriminate.
    + intros Hall. destruct (Forall_not_Exists _ Hall Hex).
    + intros _. exact Hex.
    + intros _. reflexivity.
    + intros res err. discriminate.
  - rewrite Hr. split; [split | split; [split |]].
    + intros _. exact Hall.
    + intros _. eexists; reflexivity.
    + discriminate.
    + intros Hex. destruct (Forall_not_Exists _ Hall Hex).
    + intros res err. congruence.
Qed.
End ResponseProperties.

(** ** The dispatcher factory *)

Section FactoryProperties.
Import Dispatcher.
Context {Ctx Handler Err : Type}.
Variable TenantID : Ctx -> string * option Err.

Lemma fill_adds (k : nat) (c : chan) :
  (chan_len c + k <= chan_cap c)%nat ->
  fill k c = Some {| chan_cap := chan_cap c; chan_len := chan_len c + k |}.
Proof.
  revert c. induction k as [| k IH]; intros [cap len] Hle; simpl in *.
  - f_equal. f_equal. lia.
  - unfold send; simpl. destruct (Nat.ltb_spec len cap); [| lia].
    rewrite IH by (simpl; lia). simpl. f_equal. f_equal. lia.
Qed.

Lemma resolve_parallelism_pos (h : DownstreamHandler Ctx Handler) (ctx : Ctx) :
  (1 <= resolve_parallelism TenantID h ctx)%Z.
Proof.
  unfold resolve_parallelism, DefaultDownstreamConcurrency.
  destruct (TenantID ctx) as [user [e |]]; [lia |].
  destruct (Z.ltb_spec 0 (MaxQueryParallelism h ctx user)); lia.
Qed.

(** C5. [Downstreamer] always returns an instance. Its bound is the value
    the limits give for the tenant when the tenant is resolved without
    error and that value is positive, and 128 in every other case; its
    token pool has the bound as capacity and is full. *)
Theorem Downstreamer_bound (h : DownstreamHandler Ctx Handler) (ctx : Ctx) :
  exists inst,
    Downstreamer TenantID h ctx = Some inst /\
    (forall user, TenantID ctx = (user, None) ->
       (0 < MaxQueryParallelism h ctx user)%Z ->
       parallelism inst = MaxQueryParallelism h ctx user) /\
    (forall user, TenantID ctx = (user, None) ->
       (MaxQueryParallelism h ctx user <= 0)%Z ->
       parallelism inst = 128%Z) /\
    (forall user e, TenantID ctx = (user, Some e) ->
       parallelism inst = 128%Z) /\
    Z.of_nat (chan_cap (locks inst)) = parallelism inst /\
    chan_len (locks inst) = chan_cap (locks inst) /\
    handler inst = next h.
Proof.
  unfold Downstreamer.
  pose proof (resolve_parallelism_pos h ctx) as Hpos.
  rewrite fill_adds by (simpl; lia). simpl.
  eexists; split; [reflexivity |]; simpl.
  unfold resolve_parallelism, DefaultDownstreamConcurrency in *.
  repeat split.
  - intros user Hu Hx. rewrite Hu.
    destruct (Z.ltb_spec 0 (MaxQueryParallelism h ctx user)); [reflexivity | lia].
  - intros user Hu Hx. rewrite Hu.
    destruct (Z.ltb_spec 0 (MaxQueryParallelism h ctx user)); [lia | reflexivity].
  - intros user e Hu. rewrite Hu. reflexivity.
  - lia.
Qed.
End FactoryProperties.

(** ** The bounded dispatcher *)

Import Dispatcher.

Section Channels.
Local Open Scope nat_scope.

Lemma recv_Some (c c' : chan) :
  recv c = Some c' ->
  chan_cap c' = chan_cap c /\ S (chan_len c') = chan_len c.
Proof.
  unfold recv. destruct (chan_len c) eqn:Hl; [discriminate |].
  intros [= <-]. simpl. auto.
Qed.

Lemma send_Some (c c' : chan) :
  send c = Some c' ->
  chan_cap c' = chan_cap c /\ chan_len c' = S (chan_len c) /\
  chan_len c < chan_cap c.
Proof.
  unfold send. destruct (Nat.ltb_spec (chan_len c) (chan_cap c)); [| discriminate].
  intros [= <-]. simpl. auto.
Qed.

End Channels.

(** [step_inv H] takes a move [H : step s a = Some s'] apart, into the
    conditions under which the move is possible and the state it gives;
    [prep] turns those conditions into arithmetic. *)
Ltac step_inv H :=
  unfold Dispatcher.step in H;
  repeat match type of H with
         | context [match ?x with _ => _ end] => destruct x eqn:?; try discriminate
         end;
  injection H as <-.

Ltac prep :=
  repeat match goal with
  | H : (_ && _) = true |- _ => apply andb_true_iff in H as [? ?]
  | H : (_ <? _)%nat = true |- _ => apply Nat.ltb_lt in H
  | H : (_ <? _)%nat = false |- _ => apply Nat.ltb_ge in H
  | H : recv _ = Some _ |- _ => apply recv_Some in H as (? & ?)
  | H : send _ = Some _ |- _ => apply send_Some in H as (? & ? & ?)
  end.

Section ForProperties.
Local Open Scope nat_scope.
Context {Q R E : Type}.
Variable zeroR : R.
Variable ctx_err : E.
Variable fn : Q -> R * option E.
Variable queries : list Q.
Variable in_locks : chan.

Local Abbreviation worker := (worker R E).
Local Abbreviation state := (state R E).
Local Abbreviation step := (step ctx_err fn queries).
Local Abbreviation run := (run ctx_err fn queries).
Local Abbreviation consistent := (consistent fn queries in_locks).
Local Abbreviation init := (For_init (E := E) zeroR queries in_locks).

(** *** Sums over the workers *)

Lemma total_insert (f : worker -> nat) (ws : list worker) i w w' :
  ws !! i = Some w ->
  total f (<[i := w']> ws) + f w = total f ws + f w'.
Proof.
  revert i. induction ws as [| x ws IH]; intros [| i] Hi; simpl in *;
    try discriminate.
  - injection Hi as ->. lia.
  - specialize (IH i Hi). lia.
Qed.

Lemma total_replicate (f : worker -> nat) k w :
  total f (replicate k w) = k * f w.
Proof. induction k as [| k IH]; simpl; lia. Qed.

Lemma total_le_length (f : worker -> nat) (ws : list worker) :
  (forall w, f w <= 1) -> total f ws <= length ws.
Proof.
  intros Hf. induction ws as [| x ws IH]; simpl; [lia |].
  specialize (Hf x). lia.
Qed.

Lemma total_full (f : worker -> nat) (ws : list worker) :
  (forall w, f w <= 1) -> length ws <= total f ws ->
  forall i w, ws !! i = Some w -> f w = 1.
Proof.
  intros Hf. induction ws as [| x ws IH]; intros Hlen [| i] w Hi;
    simpl in *; try discriminate.
  - injection Hi as ->.
    pose proof (total_le_length f ws Hf). specialize (Hf w). lia.
  - eapply IH; [| exact Hi].
    pose proof (total_le_length f ws Hf). specialize (Hf x). lia.
Qed.

Lemma total_all (f : worker -> nat) (ws : list worker) :
  (forall i w, ws !! i = Some w -> f w = 1) -> total f ws = length ws.
Proof.
  induction ws as [| x ws IH]; intros H; simpl; [reflexivity |].
  rewrite (H 0 x eq_refl), IH; [reflexivity |].
  intros i w Hi. exact (H (S i) w Hi).
Qed.

Lemma total_pos (f : worker -> nat) (ws : list worker) :
  0 < total f ws -> exists i w, ws !! i = Some w /\ 0 < f w.
Proof.
  induction ws as [| x ws IH]; simpl; [lia |]. intros Hpos.
  destruct (f x) eqn:Hx.
  - destruct IH as (i & w & Hi & Hw); [lia |]. exists (S i), w. auto.
  - exists 0, x. split; [reflexivity | lia].
Qed.

Lemma total_zero (f : worker -> nat) (ws : list worker) :
  total f ws = 0 -> forall i w, ws !! i = Some w -> f w = 0.
Proof.
  induction ws as [| x ws IH]; intros H0 [| i] w Hi; simpl in *;
    try discriminate.
  - injection Hi as ->. lia.
  - eapply IH; [lia | exact Hi].
Qed.

Lemma total_calling_le_holds (ws : list worker) :
  total is_calling ws <= total holds_token ws.
Proof.
  induction ws as [| x ws IH]; simpl; [lia |]. destruct x; simpl; lia.
Qed.

Lemma has_sent_le_1 (w : worker) : has_sent w <= 1.
Proof. destruct w as [| | | [] | []]; simpl; lia. Qed.

Lemma lookup_replicate_eq {A : Type} (k i : nat) (x y : A) :
  replicate k x !! i = Some y -> y = x /\ i < k.
Proof. intros H. apply lookup_replicate in H. tauto. Qed.

(** *** The initial state *)

Lemma init_consistent : consistent init.
Proof.
  constructor; simpl; try (intros; discriminate).
  - apply length_replicate.
  - apply length_replicate.
  - lia.
  - reflexivity.
  - rewrite total_replicate. simpl. lia.
  - intros j _ Hj. apply lookup_replicate. auto.
  - intros i res err Hi. apply lookup_replicate_eq in Hi as [? _]. discriminate.
  - intros _. rewrite total_replicate. simpl. lia.
  - intros _ i w Hi Hw. apply lookup_replicate_eq in Hi as [-> _]. discriminate.
  - intros _. split; [intros j Hj; lia |].
    intros i b [Hi | Hi]; apply lookup_replicate_eq in Hi as [? _]; discriminate.
Qed.
(** Tactics for the fields of [consistent] after a move: [totals] relates
    a sum over the updated workers to the sum before, [ins_hyp] and
    [ins_goal] split lookups in the updated list by index, and [field]
    puts them together. *)
Ltac totals :=
  repeat match goal with
  | |- context [total ?f (<[?i := ?w']> ?ws)] =>
      match goal with
      | H : ws !! i = Some ?w |- _ =>
          let T := fresh "T" in
          pose proof (total_insert f ws i w w' H) as T; simpl in T;
          generalize dependent (total f (<[i := w']> ws)); intros
      end
  end.

Ltac ins_hyp :=
  repeat match goal with
  | H : <[_ := _]> _ !! _ = Some _ |- _ =>
      apply list_lookup_insert_Some in H as [(? & ? & ?) | (? & H)]
  | H : _ \/ _ |- _ => destruct H
  | H : _ /\ _ |- _ => destruct H
  end; simplify_eq.

Ltac known :=
  repeat match goal with
  | H : ?P, F : ?P -> _ |- _ =>
      match type of P with Prop => specialize (F H) end
  end.

Ltac ins_goal :=
  repeat match goal with
  | |- context [<[?i := _]> _ !! ?j] =>
      first [ rewrite list_lookup_insert_ne by lia
            | rewrite list_lookup_insert_eq by lia
            | destruct (decide (i = j));
              [subst; rewrite list_lookup_insert_eq by lia
              | rewrite list_lookup_insert_ne by assumption] ]
  end.

Ltac use_hyps :=
  first
    [ match goal with
      | H : forall j, _ -> _ -> _ !! j = Some NotSpawned |- _ !! _ = Some NotSpawned =>
          apply H; lia
      end
    | exfalso;
      match goal with
      | H : forall j, j < _ -> _ !! j <> Some NotSpawned,
        H' : _ !! ?j = Some NotSpawned |- _ => apply (H j); [lia | exact H']
      end
    | match goal with
      | H : forall j, _ -> _ -> _ !! j = Some NotSpawned,
        H' : _ !! ?j = Some _ |- _ =>
          rewrite (H j) in H' by lia; discriminate
      end ].

Ltac field :=
  intros; known; ins_hyp;
  repeat match goal with |- _ /\ _ => split end;
  repeat match goal with
         | |- _ <> _ => intro
         | |- forall _, _ => intro
         end;
  totals; ins_hyp; ins_goal; try discriminate;
  try congruence; try lia; eauto; try use_hyps;
  try (eexists; split; [eassumption | destruct (fn _); reflexivity]).

(** When the collector has counted [n] results, every index has been
    delivered without error and stored. *)
Lemma all_collected s :
  consistent s -> ret s = None -> length queries <= col s ->
  results s = expected fn queries /\ all_succeed fn queries.
Proof.
  intros Hc Hret Hcol. destruct Hc.
  specialize (c_count0 Hret). specialize (c_stored0 Hret).
  assert (Hsent : forall i w, workers s !! i = Some w -> has_sent w = 1).
  { apply total_full; [apply has_sent_le_1 | lia]. }
  split.
  - apply list_eq. intros i. unfold expected. rewrite lookup_map.
    destruct (queries !! i) as [q |] eqn:Hq; simpl.
    + destruct (lookup_lt_is_Some_2 (workers s) i) as [w Hw].
      { apply lookup_lt_Some in Hq. lia. }
      destruct (c_stored0 i w Hw (Hsent i w Hw)) as (q' & Hq' & _ & Hres).
      congruence.
    + apply lookup_ge_None. apply lookup_ge_None in Hq. lia.
  - intros i q Hq.
    destruct (lookup_lt_is_Some_2 (workers s) i) as [w Hw].
    { apply lookup_lt_Some in Hq. lia. }
    destruct (c_stored0 i w Hw (Hsent i w Hw)) as (q' & Hq' & Hok & _).
    congruence.
Qed.

Lemma step_consistent s a s' :
  consistent s -> step s a = Some s' -> consistent s'.
Proof.
  intros Hc Hstep. destruct a; step_inv Hstep; prep.
  - (* ParentCancel *)
    destruct Hc; constructor; simpl; auto; try discriminate.
  - (* SupDone *)
    destruct Hc; constructor; simpl; auto; try congruence.
    intros j ? ?. apply c_fresh0; lia.
  - (* SupLock *)
    destruct Hc.
    pose proof (c_fresh0 (sup s) ltac:(lia) ltac:(lia)) as Hw.
    constructor; simpl; try rewrite length_insert; auto; field.
  - (* FnReturn *)
    destruct Hc.
    constructor; simpl; try rewrite length_insert; auto; field.
  - (* WorkerDone *)
    destruct Hc.
    constructor; simpl; try rewrite length_insert; auto; field.
  - (* Send, error *)
    destruct Hc.
    constructor; simpl; try rewrite length_insert; auto; field.
  - (* Send, success *)
    destruct Hc.
    constructor; simpl; try rewrite length_insert; auto; field.
    destruct (c_response0 _ _ _ Heqo) as (q & Hq & Hfn).
    exists q. rewrite Hfn. simpl. repeat split; auto;
      try (apply list_lookup_insert_eq; lia).
  - (* Unlock *)
    destruct Hc.
    constructor; simpl; try rewrite length_insert; auto; field.
  - (* ColDone *)
    destruct Hc.
    constructor; simpl; try rewrite length_insert; auto; field.
  - (* ColReturn *)
    destruct Hc.
    constructor; simpl; try rewrite length_insert; auto; field.
Qed.

Lemma run_consistent acts s s' :
  consistent s -> run acts s = Some s' -> consistent s'.
Proof.
  revert s. induction acts as [| a acts IH]; simpl; intros s Hc Hrun.
  - congruence.
  - destruct (step s a) as [s1 |] eqn:Hstep; [| discriminate].
    eapply IH; [| exact Hrun]. eapply step_consistent; eauto.
Qed.

Lemma For_consistent acts s :
  For zeroR ctx_err fn queries in_locks acts = Some s -> consistent s.
Proof. apply run_consistent, init_consistent. Qed.

Lemma run_app acts1 acts2 s :
  run (acts1 ++ acts2) s =
  match run acts1 s with Some s1 => run acts2 s1 | None => None end.
Proof.
  revert s. induction acts1 as [| a acts1 IH]; simpl; intros s; [reflexivity |].
  destruct (step s a); auto.
Qed.

(** *** Termination: every move uses up some of the measure *)

Lemma step_measure s a s' :
  consistent s -> step s a = Some s' ->
  measure queries s' < measure queries s.
Proof.
  intros Hc Hstep. destruct Hc.
  destruct a; step_inv Hstep; prep; unfold measure; simpl;
    try rewrite Heqo0; try rewrite Heqo; try rewrite Heqb;
    try (pose proof (c_fresh0 (sup s) ltac:(lia) ltac:(lia)));
    totals; try lia.
Qed.

(** *** Progress: before [For] has returned, some goroutine can move *)

Lemma holds_token_split (ws : list worker) :
  total holds_token ws =
  total is_calling ws + total is_selecting ws + total is_releasing ws.
Proof.
  induction ws as [| w ws IH]; simpl; [reflexivity |].
  destruct w; simpl; lia.
Qed.

Lemma progress s :
  1 <= chan_len in_locks -> chan_len in_locks <= chan_cap in_locks ->
  consistent s -> ret s = None ->
  exists a s', is_parent_cancel a = false /\ step s a = Some s'.
Proof.
  intros Hp Hcap Hc Hret. destruct Hc.
  specialize (c_count0 Hret).
  unfold Dispatcher.step.
  destruct (Nat.ltb_spec (col s) (length queries)) as [Hlt | Hge].
  2: { exists ColReturn. rewrite Hret.
       destruct (Nat.ltb_spec (col s) (length queries)); [lia |].
       eexists; split; reflexivity. }
  destruct (cancelled s) eqn:Hcan.
  { exists ColDone. rewrite Hret.
    destruct (Nat.ltb_spec (col s) (length queries)); [| lia].
    eexists; split; reflexivity. }
  destruct (c_live0 eq_refl) as (Hspawned & Hsent).
  pose proof (holds_token_split (workers s)) as Hsplit.
  destruct (Nat.eq_dec (total is_calling (workers s)) 0) as [Hcall | Hcall].
  2: { destruct (total_pos is_calling (workers s)) as (i & w & Hi & Hw); [lia |].
       destruct w; simpl in Hw; try lia.
       destruct (lookup_lt_is_Some_2 queries i) as [q Hq].
       { apply lookup_lt_Some in Hi. lia. }
       exists (FnReturn i). rewrite Hi, Hq. eexists; split; reflexivity. }
  destruct (Nat.eq_dec (total is_selecting (workers s)) 0) as [Hsel | Hsel].
  2: { destruct (total_pos is_selecting (workers s)) as (i & w & Hi & Hw); [lia |].
       destruct w as [| | res err | |]; simpl in Hw; try lia.
       exists (Send i). rewrite Hi, Hret.
       destruct (Nat.ltb_spec (col s) (length queries)); [| lia].
       destruct err; eexists; split; reflexivity. }
  destruct (Nat.eq_dec (total is_releasing (workers s)) 0) as [Hrel | Hrel].
  2: { destruct (total_pos is_releasing (workers s)) as (i & w & Hi & Hw); [lia |].
       destruct w as [| | | b |]; simpl in Hw; try lia.
       exists (Unlock i). rewrite Hi. unfold send.
       destruct (Nat.ltb_spec (chan_len (pool s)) (chan_cap (pool s))); [| lia].
       eexists; split; reflexivity. }
  destruct (Nat.ltb_spec (sup s) (length queries)) as [Hsup | Hsup].
  { exists SupLock.
    destruct (Nat.ltb_spec (sup s) (length queries)); [| lia].
    unfold recv. destruct (chan_len (pool s)) eqn:Hlen; [lia |].
    eexists; split; reflexivity. }
  exfalso.
  assert (Hall : total has_sent (workers s) = length (workers s)).
  { apply total_all. intros i w Hi.
    pose proof (total_zero _ _ Hcall i w Hi) as H1.
    pose proof (total_zero _ _ Hsel i w Hi) as H2.
    pose proof (total_zero _ _ Hrel i w Hi) as H3.
    destruct w as [| | | b | b]; simpl in *; try lia.
    - destruct (Hspawned i); [| exact Hi].
      apply lookup_lt_Some in Hi. lia.
    - rewrite (Hsent i b (or_intror Hi)). reflexivity. }
  lia.
Qed.

(** Every schedule is finite, and from every state short of the return a
    schedule leads to the return. *)
Lemma run_measure acts s s' :
  consistent s -> run acts s = Some s' ->
  length acts + measure queries s' <= measure queries s.
Proof.
  revert s. induction acts as [| a acts IH]; simpl; intros s Hc Hrun.
  - injection Hrun as <-. lia.
  - destruct (step s a) as [s1 |] eqn:Hstep; [| discriminate].
    pose proof (step_measure _ _ _ Hc Hstep).
    pose proof (IH s1 (step_consistent _ _ _ Hc Hstep) Hrun). lia.
Qed.

Lemma reaches_return s :
  1 <= chan_len in_locks -> chan_len in_locks <= chan_cap in_locks ->
  consistent s ->
  exists acts s',
    forallb (fun a => negb (is_parent_cancel a)) acts = true /\
    run acts s = Some s' /\ ret s' <> None.
Proof.
  intros Hp Hcap.
  remember (measure queries s) as m eqn:Hm.
  revert s Hm. induction m as [m IH] using lt_wf_ind. intros s -> Hc.
  destruct (ret s) eqn:Hret.
  - exists [], s. simpl. rewrite Hret. auto.
  - destruct (progress s Hp Hcap Hc Hret) as (a & s1 & Ha & Hstep).
    destruct (IH _ (step_measure _ _ _ Hc Hstep) s1 eq_refl
                (step_consistent _ _ _ Hc Hstep))
      as (acts & s' & Hq & Hrun & Hr).
    exists (a :: acts), s'. simpl. rewrite Ha, Hstep. auto.
Qed.

(** *** What [For] returns *)

(** Once [For] has returned, its result does not change. *)
Lemma step_ret_stable s a s' v :
  ret s = Some v -> step s a = Some s' -> ret s' = Some v.
Proof.
  intros Hret Hstep. destruct a; step_inv Hstep; simpl; congruence.
Qed.

Lemma run_ret_stable acts s s' v :
  ret s = Some v -> run acts s = Some s' -> ret s' = Some v.
Proof.
  revert s. induction acts as [| a acts IH]; simpl; intros s Hret Hrun.
  - congruence.
  - destruct (step s a) as [s1 |] eqn:Hstep; [| discriminate].
    eapply IH; [| exact Hrun]. eapply step_ret_stable; eauto.
Qed.

Lemma first_failure_none acts :
  all_succeed fn queries -> first_failure fn queries acts = None.
Proof.
  intros Hall. induction acts as [| a acts IH]; simpl; [reflexivity |].
  destruct a; auto.
  destruct (queries !! i) as [q |] eqn:Hq; auto.
  rewrite (Hall i q Hq). exact IH.
Qed.

(** The three ways [For] returns: all [n] results, in the order of the
    queries; the first failing response delivered; or the context's error,
    after the caller's context was cancelled. *)
Lemma returned_value acts : forall s s' l e,
  consistent s -> ret s = None -> run acts s = Some s' ->
  ret s' = Some (l, e) ->
  (l = Some (expected fn queries) /\ e = None /\ all_succeed fn queries /\
   first_failure fn queries acts = None)
  \/ (l = None /\ e = first_failure fn queries acts /\ e <> None)
  \/ (l = None /\ e = Some ctx_err /\ cancelled_by_caller s acts).
Proof.
  induction acts as [| a acts IH]; intros s s' l e Hc Hret Hrun Hres;
    simpl in Hrun.
  - congruence.
  - destruct (step s a) as [s1 |] eqn:Hstep; [| discriminate].
    pose proof (step_consistent _ _ _ Hc Hstep) as Hc1.
    destruct (ret s1) as [v |] eqn:Hret1.
    + rewrite (run_ret_stable _ _ _ _ Hret1 Hrun) in Hres. injection Hres as ->.
      clear IH Hrun. destruct a; step_inv Hstep; simpl in *; simplify_eq.
      * (* Send, error *)
        right; left. destruct Hc.
        destruct (c_response0 _ _ _ Heqo) as (q & Hq & Hfn).
        simpl. rewrite Hq, Hfn. simpl. auto.
      * (* ColDone *)
        right; right. prep. unfold cancelled_by_caller. auto.
      * (* ColReturn *)
        left. prep. destruct (all_collected s) as [-> Hall]; auto.
        repeat split; auto. exact (first_failure_none (ColReturn :: acts) Hall).
    + destruct (IH s1 s' l e Hc1 Hret1 Hrun Hres)
        as [(-> & -> & Hall & Hff) | [(-> & -> & Hne) | (-> & -> & Hcan)]].
      * left. repeat split; auto. exact (first_failure_none (a :: acts) Hall).
      * right; left. split; [reflexivity |].
        assert (first_failure fn queries (a :: acts) = first_failure fn queries acts)
          as ->; [| auto].
        clear IH Hrun Hres Hne. destruct a; try reflexivity.
        step_inv Hstep; simpl in *; simplify_eq.
        destruct Hc. destruct (c_response0 _ _ _ Heqo) as (q & Hq & Hfn).
        simpl. rewrite Hq, Hfn. reflexivity.
      * right; right. repeat split; auto.
        unfold cancelled_by_caller in *.
        destruct Hcan as [Hcan | Hin]; [| right; right; exact Hin].
        clear IH Hrun Hres.
        destruct a; step_inv Hstep; simpl in *; simplify_eq; auto.
Qed.

(** *** After the return *)

(** Once [For] has returned nothing is collected any more: no response is
    delivered and the results stay as they are. *)
Lemma step_after_return s a s' v :
  ret s = Some v -> step s a = Some s' ->
  results s' = results s /\ col s' = col s /\ forall i, a <> Send i.
Proof.
  intros Hret Hstep.
  destruct a; step_inv Hstep; simpl; repeat split; congruence.
Qed.

Lemma run_after_return acts : forall s s' v,
  ret s = Some v -> run acts s = Some s' ->
  ret s' = Some v /\ results s' = results s /\ col s' = col s /\
  forall i, ~ In (Send i) acts.
Proof.
  induction acts as [| a acts IH]; intros s s' v Hret Hrun; simpl in Hrun.
  - injection Hrun as <-. repeat split; auto.
  - destruct (step s a) as [s1 |] eqn:Hstep; [| discriminate].
    destruct (step_after_return s a s1 v Hret Hstep) as (Hr & Hc & Ha).
    pose proof (step_ret_stable s a s1 v Hret Hstep) as Hret1.
    destruct (IH s1 s' v Hret1 Hrun) as (Hv & Hr' & Hc' & Hn).
    repeat split; try congruence.
    intros i [Hi | Hi]; [exact (Ha i Hi) | exact (Hn i Hi)].
Qed.

(** The collector returns at the very move that delivers a failing
    response: a schedule in which one is delivered ends in a state where
    [For] has returned its error. *)
Lemma failing_delivery_returns acts : forall s s' e,
  consistent s -> run acts s = Some s' ->
  first_failure fn queries acts = Some e ->
  ret s' = Some (None, Some e).
Proof.
  induction acts as [| a acts IH]; intros s s' e Hc Hrun Hff;
    simpl in Hrun; [discriminate |].
  destruct (step s a) as [s1 |] eqn:Hstep; [| discriminate].
  pose proof (step_consistent _ _ _ Hc Hstep) as Hc1.
  destruct a; simpl in Hff; try (eapply IH; eauto; fail).
  destruct Hc. step_inv Hstep;
    match goal with
    | H : workers s !! _ = Some (Selecting _ _) |- _ =>
        destruct (c_response0 _ _ _ H) as (q & Hq & Hfn)
    end;
    rewrite Hq, Hfn in Hff; simpl in Hff.
  - injection Hff as <-. eapply run_ret_stable; [| exact Hrun]. reflexivity.
  - eapply IH; eauto.
Qed.
End ForProperties.

(** *** The claims about [For] *)

Section ForClaims.
Local Open Scope nat_scope.
Context {Q R E : Type}.
Variable zeroR : R.
Variable ctx_err : E.
Variable fn : Q -> R * option E.

Lemma no_parent_cancel (acts : list action) :
  forallb (fun a => negb (is_parent_cancel a)) acts = true ->
  ~ In ParentCancel acts.
Proof.
  induction acts as [| a acts IH]; simpl; [tauto |].
  intros Hall [-> | Hin].
  - discriminate.
  - apply andb_true_iff in Hall as [_ Hall]. exact (IH Hall Hin).
Qed.

Lemma measure_init (queries : list Q) (in_locks : chan) :
  measure queries (For_init (E := E) zeroR queries in_locks)
  = 5 * length queries + 2.
Proof.
  unfold measure, For_init; simpl. rewrite total_replicate. simpl. lia.
Qed.

(** Every call returns: a schedule has at most [5 n + 2] moves, and from
    each of its states some schedule, in which the caller does not cancel,
    leads to the return. *)
Lemma For_returns (queries : list Q) (in_locks : chan) acts s :
  1 <= chan_len in_locks -> chan_len in_locks <= chan_cap in_locks ->
  For zeroR ctx_err fn queries in_locks acts = Some s ->
  length acts <= 5 * length queries + 2 /\
  exists acts' s',
    ~ In ParentCancel acts' /\
    For zeroR ctx_err fn queries in_locks (acts ++ acts') = Some s' /\
    ret s' <> None.
Proof.
  intros Hp Hcap Hrun.
  pose proof (For_consistent zeroR ctx_err fn queries in_locks acts s Hrun) as Hc.
  split.
  - pose proof (run_measure ctx_err fn queries in_locks acts _ s
                  (init_consistent zeroR fn queries in_locks) Hrun) as Hm.
    rewrite measure_init in Hm. lia.
  - destruct (reaches_return ctx_err fn queries in_locks s Hp Hcap Hc)
      as (acts' & s' & Hq & Hrun' & Hret).
    exists acts', s'. split; [apply no_parent_cancel, Hq |].
    split; [| exact Hret].
    unfold For in *. rewrite run_app, Hrun. exact Hrun'.
Qed.

(** C1. When [fn] succeeds on every query, whatever the order in which the
    workers complete, [For] returns either a list and no error, and then
    the list has one entry per query and entry [i] is what [fn] gives for
    query [i], or no list and the context's error, and then the caller's
    context was cancelled; and it does return. *)
Theorem For_preserves_order (queries : list Q) (in_locks : chan) acts s :
  all_succeed fn queries ->
  1 <= chan_len in_locks -> chan_len in_locks <= chan_cap in_locks ->
  For zeroR ctx_err fn queries in_locks acts = Some s ->
  (forall l e, ret s = Some (l, e) ->
     (e = None /\
      exists rs, l = Some rs /\ length rs = length queries /\
        forall i q, queries !! i = Some q -> rs !! i = Some (fst (fn q)))
     \/ (l = None /\ e = Some ctx_err /\ In ParentCancel acts)) /\
  length acts <= 5 * length queries + 2 /\
  exists acts' s',
    ~ In ParentCancel acts' /\
    For zeroR ctx_err fn queries in_locks (acts ++ acts') = Some s' /\
    ret s' <> None.
Proof.
  intros Hall Hp Hcap Hrun. split; [| eapply For_returns; eauto].
  intros l e Hret.
  destruct (returned_value ctx_err fn queries in_locks acts _ s l e
              (init_consistent zeroR fn queries in_locks) eq_refl Hrun Hret)
    as [(-> & -> & _ & _) | [(-> & -> & Hne) | (-> & -> & [Hcan | Hin])]].
  - left. split; [reflexivity |]. eexists; split; [reflexivity |].
    unfold expected. split; [apply length_map |].
    intros i q Hq. rewrite lookup_map, Hq. reflexivity.
  - rewrite (first_failure_none fn queries acts Hall) in Hne. congruence.
  - discriminate.
  - right. auto.
Qed.

(** C2. When [fn] fails on some query, [For] never returns a list: what it
    returns is no list together with an error, which is the error of the
    first failing response delivered to the collector or, when the
    caller's context was cancelled, possibly the context's error; and it
    does return. The failure aborts the batch: the collector returns at
    the very move that delivers the failing response, without waiting for
    the others, the return cancels the derived context, and from then on
    no response is delivered and nothing is collected any more. *)
Theorem For_fails_fast (queries : list Q) (in_locks : chan) j qj ej acts s :
  queries !! j = Some qj -> snd (fn qj) = Some ej ->
  1 <= chan_len in_locks -> chan_len in_locks <= chan_cap in_locks ->
  For zeroR ctx_err fn queries in_locks acts = Some s ->
  (forall l e, ret s = Some (l, e) ->
     l = None /\ e <> None /\
     (e = first_failure fn queries acts \/
      (e = Some ctx_err /\ In ParentCancel acts))) /\
  length acts <= 5 * length queries + 2 /\
  (exists acts' s',
    ~ In ParentCancel acts' /\
    For zeroR ctx_err fn queries in_locks (acts ++ acts') = Some s' /\
    ret s' <> None) /\
  (forall e, first_failure fn queries acts = Some e ->
     ret s = Some (None, Some e)) /\
  (ret s <> None ->
     cancelled s = true /\
     (forall i, step ctx_err fn queries s (Send i) = None) /\
     forall acts' s', run ctx_err fn queries acts' s = Some s' ->
       ret s' = ret s /\ cancelled s' = true /\
       results s' = results s /\ col s' = col s /\
       forall i, ~ In (Send i) acts').
Proof.
  intros Hj Hej Hp Hcap Hrun.
  pose proof (init_consistent zeroR fn queries in_locks) as Hc0.
  pose proof (For_consistent zeroR ctx_err fn queries in_locks acts s Hrun)
    as Hc.
  split; [| split; [| split; [| split]]].
  - intros l e Hret.
    destruct (returned_value ctx_err fn queries in_locks acts _ s l e
                Hc0 eq_refl Hrun Hret)
      as [(-> & -> & Hall & _) | [(-> & -> & Hne) | (-> & -> & [Hcan | Hin])]].
    + rewrite (Hall j qj Hj) in Hej. discriminate.
    + auto.
    + discriminate.
    + repeat split; auto; discriminate.
  - eapply For_returns; eauto.
  - eapply For_returns; eauto.
  - intros e Hff.
    exact (failing_delivery_returns ctx_err fn queries in_locks acts _ s e
             Hc0 Hrun Hff).
  - intros Hret. destruct (ret s) as [v |] eqn:Hv; [| congruence].
    split; [exact (c_ret _ _ _ _ _ _ _ Hc v Hv) |]. split.
    + intros i. destruct (step ctx_err fn queries s (Send i)) as [s1 |] eqn:Hs;
        [| reflexivity].
      destruct (step_after_return ctx_err fn queries s (Send i) s1 v Hv Hs)
        as (_ & _ & Hn). destruct (Hn i eq_refl).
    + intros acts' s' Hrun'.
      destruct (run_after_return ctx_err fn queries acts' s s' v Hv Hrun')
        as (Hv' & Hr & Hcol & Hn).
      repeat split; auto.
      exact (c_ret _ _ _ _ _ _ _ (run_consistent ctx_err fn queries in_locks
                                    acts' s s' Hc Hrun') v Hv').
Qed.

(** C4. At every moment of a call of [For] on an instance whose pool holds
    at most [parallelism] tokens, as the pool that [Downstreamer] fills
    does, the number of invocations of [fn] in progress is at most
    [parallelism], whatever the number of queries; the invocations in
    progress and the tokens in the pool never add up to more than the
    tokens the pool held at the call. *)
Theorem For_bounded_concurrency {Handler : Type} (inst : instance Handler)
    (queries : list Q) acts s :
  (Z.of_nat (chan_len (locks inst)) <= parallelism inst)%Z ->
  For zeroR ctx_err fn queries (locks inst) acts = Some s ->
  (Z.of_nat (executing s) <= parallelism inst)%Z /\
  executing s + chan_len (pool s) <= chan_len (locks inst).
Proof.
  intros Hp Hrun. apply For_consistent in Hrun. destruct Hrun.
  pose proof (total_calling_le_holds (workers s)).
  unfold executing. lia.
Qed.

Lemma idle_step (in_locks : chan) s a s' :
  idle in_locks s -> step ctx_err fn [] s a = Some s' ->
  idle in_locks s' /\ is_lock a = false.
Proof.
  intros (Hw & Hr & Hp & Hret) Hstep. unfold idle.
  destruct a; unfold step in Hstep; simpl in Hstep;
    try rewrite Hw in Hstep; simpl in Hstep;
    repeat (match type of Hstep with
            | context [match ?x with _ => _ end] => destruct x eqn:?
            end; simpl in Hstep);
    try discriminate; injection Hstep as <-; simpl;
    try rewrite Hr; auto 10.
Qed.

Lemma idle_run (in_locks : chan) acts : forall s s',
  idle in_locks s -> run ctx_err fn [] acts s = Some s' ->
  idle in_locks s' /\ acquisitions acts = 0.
Proof.
  induction acts as [| a acts IH]; simpl; intros s s' Hi Hrun.
  - injection Hrun as <-. auto.
  - destruct (step ctx_err fn [] s a) as [s1 |] eqn:Hstep; [| discriminate].
    destruct (idle_step _ _ _ _ Hi Hstep) as [Hi1 Ha].
    destruct (IH _ _ Hi1 Hrun) as [Hi' Hacq]. split; [exact Hi' |].
    unfold acquisitions in *. rewrite filter_cons.
    destruct (decide (is_lock a = true)); [congruence | exact Hacq].
Qed.

(** C9. A call of [For] with no query never takes a token from the pool,
    and what it returns, which it can do at once, is the empty list and no
    error, also when the caller's context is cancelled. *)
Theorem For_empty (in_locks : chan) acts s :
  For zeroR ctx_err fn [] in_locks acts = Some s ->
  acquisitions acts = 0 /\
  pool s = in_locks /\
  (forall l e, ret s = Some (l, e) -> l = Some [] /\ e = None) /\
  (ret s = None ->
   exists s', step ctx_err fn [] s ColReturn = Some s' /\
              ret s' = Some (Some [], None)).
Proof.
  intros Hrun.
  assert (Hinit : idle in_locks (For_init (Q := Q) (E := E) zeroR [] in_locks)).
  { unfold idle; simpl; auto. }
  destruct (idle_run in_locks acts _ s Hinit Hrun)
    as [(Hw & Hr & Hp & Hret) Hacq].
  repeat split; auto.
  - destruct Hret; congruence.
  - destruct Hret; congruence.
  - intros Hnone. unfold step; simpl. rewrite Hnone, Hr.
    eexists; split; reflexivity.
Qed.
End ForClaims.

(** ** The claims at concrete inputs *)

Section Examples.
Import Response.
Local Open Scope nat_scope.

(** C3. The supervisor does not stop at a cancelled context. Here the
    worker of index 0 fails, the collector returns its error and so cancels
    the context, and the token comes back to the pool; the supervisor then
    takes the [Done] case for index 1, which leaves the select and not the
    loop, and for index 2 it takes a token and starts a worker, after
    [For] has returned. *)
Lemma For_supervisor_acquires_after_cancel :
  let fn := fun q : nat => if q =? 10 then (0, Some "boom") else (q, None) in
  let queries := [10; 20; 30] in
  let in_locks := {| chan_cap := 1; chan_len := 1 |} in
  exists s1 s2,
    For 0 "context canceled" fn queries in_locks
        [SupLock; FnReturn 0; Send 0; Unlock 0] = Some s1 /\
    ret s1 = Some (None, Some "boom") /\
    cancelled s1 = true /\
    sup s1 = 1 /\
    run "context canceled" fn queries [SupDone; SupLock] s1 = Some s2 /\
    acquisitions [SupDone; SupLock] = 1 /\
    workers s2 !! 2 = Some Calling /\
    executing s2 = 1 /\
    chan_len (pool s2) = 0.
Proof.
  simpl. eexists. eexists.
  split; [vm_compute; reflexivity |].
  repeat split; vm_compute; reflexivity.
Qed.

(** Three queries, two tokens, the worker of index 1 delivering first. *)
Lemma For_preserves_order_witness :
  let fn := fun q : nat => (q + 1, @None string) in
  let queries := [10; 20; 30] in
  let in_locks := {| chan_cap := 2; chan_len := 2 |} in
  let acts := [SupLock; SupLock; FnReturn 1; Send 1; FnReturn 0; Unlock 1;
               SupLock; FnReturn 2; Send 2; Send 0; ColReturn] in
  exists s,
    For 0 "context canceled" fn queries in_locks acts = Some s /\
    ret s = Some (Some [11; 21; 31], None) /\
    ((forall l e, ret s = Some (l, e) ->
       (e = None /\
        exists rs, l = Some rs /\ length rs = length queries /\
          forall i q, queries !! i = Some q -> rs !! i = Some (fst (fn q)))
       \/ (l = None /\ e = Some "context canceled" /\ In ParentCancel acts)) /\
     length acts <= 5 * length queries + 2 /\
     exists acts' s',
       ~ In ParentCancel acts' /\
       For 0 "context canceled" fn queries in_locks (acts ++ acts') = Some s' /\
       ret s' <> None).
Proof.
  intros fn queries in_locks acts. eexists.
  split; [vm_compute; reflexivity |].
  split; [reflexivity |].
  apply (For_preserves_order 0 "context canceled" fn queries in_locks acts).
  - intros i q _. reflexivity.
  - simpl. lia.
  - simpl. lia.
  - vm_compute. reflexivity.
Defined.

(** The worker of index 1 fails; the response of index 0 is delivered
    first and is not returned. The worker of index 2 is never started
    here, and whatever runs afterwards delivers nothing. *)
Lemma For_fails_fast_witness :
  let fn := fun q : nat => if q =? 20 then (0, Some "boom") else (q, None) in
  let queries := [10; 20; 30] in
  let in_locks := {| chan_cap := 2; chan_len := 2 |} in
  let acts := [SupLock; SupLock; FnReturn 1; FnReturn 0; Send 0; Send 1] in
  exists s,
    For 0 "context canceled" fn queries in_locks acts = Some s /\
    queries !! 1 = Some 20 /\ snd (fn 20) = Some "boom" /\
    1 <= chan_len in_locks /\ chan_len in_locks <= chan_cap in_locks /\
    first_failure fn queries acts = Some "boom" /\
    ret s = Some (None, Some "boom") /\
    cancelled s = true /\
    (forall l e, ret s = Some (l, e) ->
       l = None /\ e <> None /\
       (e = first_failure fn queries acts \/
        (e = Some "context canceled" /\ In ParentCancel acts))) /\
    length acts <= 5 * length queries + 2 /\
    (exists acts' s',
       ~ In ParentCancel acts' /\
       For 0 "context canceled" fn queries in_locks (acts ++ acts') = Some s' /\
       ret s' <> None) /\
    (forall i, step "context canceled" fn queries s (Send i) = None) /\
    (forall acts' s', run "context canceled" fn queries acts' s = Some s' ->
       ret s' = ret s /\ cancelled s' = true /\
       results s' = results s /\ col s' = col s /\
       forall i, ~ In (Send i) acts').
Proof.
  intros fn queries in_locks acts.
  destruct (For 0 "context canceled" fn queries in_locks acts) as [s |] eqn:Hrun;
    [| vm_compute in Hrun; discriminate].
  exists s. split; [reflexivity |].
  split; [reflexivity |]. split; [reflexivity |].
  split; [simpl; lia |]. split; [simpl; lia |].
  assert (Hff : first_failure fn queries acts = Some "boom") by reflexivity.
  split; [exact Hff |].
  destruct (For_fails_fast 0 "context canceled" fn queries in_locks 1 20 "boom"
              acts s eq_refl eq_refl ltac:(simpl; lia) ltac:(simpl; lia) Hrun)
    as (Hpair & Hlen & Hlive & Hfirst & Habort).
  pose proof (Hfirst "boom" Hff) as Hret.
  assert (Hne : ret s <> None) by congruence.
  destruct (Habort Hne) as (Hcan & Hsend & Hafter).
  repeat split; auto.
  - apply (Hpair l e H).
  - apply (Hpair l e H).
  - apply (Hpair l e H).
  - apply (Hafter acts' s' H).
  - apply (Hafter acts' s' H).
  - apply (Hafter acts' s' H).
  - apply (Hafter acts' s' H).
  - apply (Hafter acts' s' H).
Defined.

(** Five queries on a pool of two tokens. *)
Lemma For_bounded_concurrency_witness :
  let fn := fun q : nat => (q, @None string) in
  let queries := [10; 20; 30; 40; 50] in
  let inst := {| parallelism := 2;
                 locks := {| chan_cap := 2; chan_len := 2 |};
                 handler := tt |} in
  let acts := [SupLock; SupLock; FnReturn 0; Send 0; Unlock 0; SupLock] in
  exists s,
    For 0 "context canceled" fn queries (locks inst) acts = Some s /\
    executing s = 2 /\
    (Z.of_nat (chan_len (locks inst)) <= parallelism inst)%Z /\
    (Z.of_nat (executing s) <= parallelism inst)%Z /\
    executing s + chan_len (pool s) <= chan_len (locks inst).
Proof.
  intros fn queries inst acts. eexists.
  split; [vm_compute; reflexivity |].
  split; [reflexivity |].
  split; [simpl; lia |].
  apply (For_bounded_concurrency 0 "context canceled" fn inst queries acts).
  - simpl. lia.
  - vm_compute. reflexivity.
Defined.

(** No query, and a caller that has cancelled its context. *)
Lemma For_empty_witness :
  let fn := fun q : nat => (q, @None string) in
  let in_locks := {| chan_cap := 128; chan_len := 128 |} in
  let acts := [ParentCancel; ColReturn] in
  exists s,
    For 0 "context canceled" fn [] in_locks acts = Some s /\
    ret s = Some (Some [], None) /\
    acquisitions acts = 0 /\
    pool s = in_locks /\
    (forall l e, ret s = Some (l, e) -> l = Some [] /\ e = None) /\
    (ret s = None ->
     exists s', step "context canceled" fn [] s ColReturn = Some s' /\
                ret s' = Some (Some [], None)).
Proof.
  intros fn in_locks acts. eexists.
  split; [vm_compute; reflexivity |].
  split; [reflexivity |].
  apply (For_empty 0 "context canceled" fn in_locks acts).
  vm_compute. reflexivity.
Defined.

Local Abbreviation prom := (LokiPromResponse Z Z (list string)).
Local Abbreviation translate :=
  (ResponseToResult Z string Z (list string) 0%Z []).

(** An error-free response of a recognised type on which
    [ResponseToResult] returns nothing. *)
Lemma ResponseToResult_panics_without_sample :
  let r : prom :=
    {| pError := EmptyString; pErrorType := EmptyString;
       pResultType := "vector";
       pResult := [ {| Labels := [ {| laName := "job"; laValue := "api" |} ];
                       Samples := [] |} ];
       pStatistics := 0%Z; pHeaders := [] |} in
  pError _ _ _ r = EmptyString /\
  translate (OfProm _ _ _ _ r) = Panics index_out_of_range /\
  ~ (exists res, translate (OfProm _ _ _ _ r) = Returns (res, None)).
Proof.
  simpl. split; [reflexivity |]. split; [reflexivity |].
  intros [res Hres]. vm_compute in Hres. discriminate.
Qed.

(** An error-free response declared as a vector for which no vector is
    produced: its second stream has no sample. *)
Lemma ResponseToResult_no_vector_without_sample :
  let r : prom :=
    {| pError := EmptyString; pErrorType := EmptyString;
       pResultType := "vector";
       pResult := [ {| Labels := [ {| laName := "job"; laValue := "api" |} ];
                       Samples := [ {| sValue := 7%Z; TimestampMs := 1000%Z |} ] |};
                    {| Labels := [ {| laName := "job"; laValue := "db" |} ];
                       Samples := [] |} ];
       pStatistics := 0%Z; pHeaders := [] |} in
  pError _ _ _ r = EmptyString /\
  pResultType _ _ _ r = "vector" /\
  ~ (exists res xs,
       translate (OfProm _ _ _ _ r) = Returns (res, None) /\
       Data _ _ _ _ res = Some (Vector _ _ xs) /\
       length xs = length (pResult _ _ _ r)).
Proof.
  simpl. split; [reflexivity |]. split; [reflexivity |].
  intros (res & xs & Hres & _). vm_compute in Hres. discriminate.
Qed.

(** A response declared as a vector, with a stream without sample, on
    which [ResponseToResult] does not panic: it carries an error message,
    and the error is returned before any sample is read. *)
Lemma ResponseToResult_error_precedes_samples :
  let r : prom :=
    {| pError := "boom"; pErrorType := "execution";
       pResultType := "vector";
       pResult := [ {| Labels := [ {| laName := "job"; laValue := "api" |} ];
                       Samples := [] |} ];
       pStatistics := 0%Z; pHeaders := [] |} in
  pResultType _ _ _ r = "vector" /\
  Exists (fun st => Samples _ st = []) (pResult _ _ _ r) /\
  translate (OfProm _ _ _ _ r)
    = Returns (zeroResult Z string Z (list string) 0%Z [],
               Some "execution: boom") /\
  ~ (exists msg, translate (OfProm _ _ _ _ r) = Panics msg).
Proof.
  simpl. split; [reflexivity |].
  split; [constructor; reflexivity |].
  split; [reflexivity |].
  intros [msg Hmsg]. vm_compute in Hmsg. discriminate.
Qed.

(** Three streams of one sample each, declared as a vector. *)
Lemma ResponseToResult_vector_or_matrix_witness :
  let stream (job : string) (v t : Z) : SampleStream Z :=
    {| Labels := [ {| laName := "job"; laValue := job |} ];
       Samples := [ {| sValue := v; TimestampMs := t |} ] |} in
  let r : prom :=
    {| pError := EmptyString; pErrorType := EmptyString;
       pResultType := "vector";
       pResult := [ stream "api" 7%Z 1000%Z; stream "db" 8%Z 1000%Z;
                    stream "web" 9%Z 1000%Z ];
       pStatistics := 0%Z; pHeaders := [] |} in
  pError _ _ _ r = EmptyString /\
  pResultType _ _ _ r = "vector" /\
  Forall (fun st => Samples _ st <> []) (pResult _ _ _ r) /\
  exists res xs,
    translate (OfProm _ _ _ _ r) = Returns (res, None) /\
    Data _ _ _ _ res = Some (Vector _ _ xs) /\
    length xs = 3.
Proof.
  intros stream r.
  assert (Hall : Forall (fun st => Samples _ st <> []) (pResult _ _ _ r)).
  { repeat constructor; discriminate. }
  split; [reflexivity |]. split; [reflexivity |]. split; [exact Hall |].
  destruct (ResponseToResult_vector_or_matrix (Stream := string) 0%Z [] r eq_refl)
    as [Hvec _].
  destruct (Hvec eq_refl Hall) as (res & xs & Hres & Hdata & Hlen & _).
  exists res, xs. auto.
Defined.

(** A vector whose only stream has no sample. *)
Lemma ResponseToResult_vector_total_iff_sampled_witness :
  let r : prom :=
    {| pError := EmptyString; pErrorType := EmptyString;
       pResultType := "vector";
       pResult := [ {| Labels := [ {| laName := "job"; laValue := "api" |} ];
                       Samples := [] |} ];
       pStatistics := 0%Z; pHeaders := [] |} in
  pError _ _ _ r = EmptyString /\
  pResultType _ _ _ r = "vector" /\
  ((exists res, translate (OfProm _ _ _ _ r) = Returns (res, None))
     <-> Forall (fun st => Samples _ st <> []) (pResult _ _ _ r)) /\
  (translate (OfProm _ _ _ _ r) =
     Panics "runtime error: index out of range [0] with length 0"
     <-> Exists (fun st => Samples _ st = []) (pResult _ _ _ r)) /\
  (forall res err, translate (OfProm _ _ _ _ r) <> Returns (res, Some err)).
Proof.
  intros r. split; [reflexivity |]. split; [reflexivity |].
  apply (ResponseToResult_vector_total_iff_sampled (Stream := string) 0%Z [] r);
    reflexivity.
Defined.
End Examples.

Section MoreExamples.
Import Request.
Local Open Scope Z_scope.

(** A range query of 30 s step and 5 s interval, and an instant query, with
    the range type decided as package logql does: instant when start and
    end coincide and the step is zero. *)
Example ParamsToLokiRequest_range :
  let GetRangeType := fun p : Params Z =>
    if (Start p =? End_ p) && (Step p =? 0) then InstantType else RangeType in
  let params := {| Query := "sum(rate({app=~.+}[1m]))"; Limit := 1000;
                   Start := 1600000000; End_ := 1600003600;
                   Step := 30000000000; Interval := 5000000000;
                   Dir := BACKWARD |} in
  ParamsToLokiRequest (fun sh : list string => sh) GetRangeType params ["0_of_2"]
  = Range {| rQuery := "sum(rate({app=~.+}[1m]))"; rLimit := 1000;
             rStep := 30000; rInterval := 5000;
             rStartTs := 1600000000; rEndTs := 1600003600;
             rDirection := BACKWARD; rPath := "/loki/api/v1/query_range";
             rShards := ["0_of_2"] |}.
Proof. reflexivity. Qed.

Example ParamsToLokiRequest_instant :
  let GetRangeType := fun p : Params Z =>
    if (Start p =? End_ p) && (Step p =? 0) then InstantType else RangeType in
  let params := {| Query := "count_over_time({app=~.+}[1m])"; Limit := 100;
                   Start := 1600000000; End_ := 1600000000;
                   Step := 0; Interval := 0; Dir := FORWARD |} in
  ParamsToLokiRequest (fun sh : list string => sh) GetRangeType params []
  = Instant {| iQuery := "count_over_time({app=~.+}[1m])"; iLimit := 100;
               iTimeTs := 1600000000; iDirection := FORWARD;
               iPath := "/loki/api/v1/query"; iShards := [] |}.
Proof. reflexivity. Qed.

(** The three ways the bound is resolved. *)
Example Downstreamer_override :
  let TenantID := fun ctx : string => (ctx, @None string) in
  let h := {| MaxQueryParallelism := fun _ user =>
                if String.eqb user "tenant-a" then 32 else 0;
              next := tt |} in
  Downstreamer TenantID h "tenant-a"
  = Some {| parallelism := 32;
            locks := {| chan_cap := 32; chan_len := 32 |};
            handler := tt |}.
Proof. vm_compute. reflexivity. Qed.

Example Downstreamer_no_override :
  let TenantID := fun ctx : string => (ctx, @None string) in
  let h := {| MaxQueryParallelism := fun _ user =>
                if String.eqb user "tenant-a" then 32 else 0;
              next := tt |} in
  Downstreamer TenantID h "tenant-b"
  = Some {| parallelism := 128;
            locks := {| chan_cap := 128; chan_len := 128 |};
            handler := tt |}.
Proof. vm_compute. reflexivity. Qed.

Example Downstreamer_no_tenant :
  let TenantID := fun ctx : string => (EmptyString, Some "no org id") in
  let h := {| MaxQueryParallelism := fun _ _ => 32; next := tt |} in
  Downstreamer TenantID h "ctx"
  = Some {| parallelism := 128;
            locks := {| chan_cap := 128; chan_len := 128 |};
            handler := tt |}.
Proof. vm_compute. reflexivity. Qed.
End MoreExamples.

(** * Further properties *)

(** ** Dispatch and release in [For] *)

Section ForLedger.
Import Ledger.
Local Open Scope nat_scope.
Context {Q R E : Type}.
Variable zeroR : R.
Variable ctx_err : E.
Variable fn : Q -> R * option E.
Variable queries : list Q.
Variable in_locks : chan.

Local Abbreviation step := (step ctx_err fn queries).
Local Abbreviation run := (run ctx_err fn queries).
Local Abbreviation consistent := (consistent fn queries in_locks).
Local Abbreviation init := (For_init (E := E) zeroR queries in_locks).

Lemma step_may_call s a s' i :
  consistent s -> step s a = Some s' ->
  returns_at i a + may_call s' i <= may_call s i.
Proof.
  intros Hc Hstep. destruct Hc.
  destruct a; step_inv Hstep; prep;
    unfold may_call, returns_at, set_sup, set_worker, set_pool, store,
      do_return;
    cbn [sup workers];
    try (pose proof (c_fresh0 (sup s) ltac:(lia) ltac:(lia)));
    repeat match goal with
    | |- context [<[?j := _]> _ !! ?k] =>
        destruct (decide (j = k));
        [ subst; rewrite list_lookup_insert_eq
            by (eapply lookup_lt_Some; eassumption)
        | rewrite list_lookup_insert_ne by assumption ]
    end;
    repeat match goal with
    | H : workers s !! ?k = Some _ |- context [workers s !! ?k] => rewrite H
    end;
    try destruct (workers s !! i) as [[] |];
    repeat match goal with
    | |- context [?a <=? ?b] => destruct (Nat.leb_spec a b)
    | |- context [?a =? ?b] => destruct (Nat.eqb_spec a b)
    end; try lia.
Qed.

Lemma run_may_call acts : forall s s' i,
  consistent s -> run acts s = Some s' ->
  calls i acts + may_call s' i <= may_call s i.
Proof.
  induction acts as [| a acts IH]; intros s s' i Hc Hrun; simpl in Hrun.
  - injection Hrun as <-. simpl. lia.
  - destruct (step s a) as [s1 |] eqn:Hstep; [| discriminate].
    pose proof (step_may_call s a s1 i Hc Hstep) as H1.
    pose proof (IH s1 s' i (step_consistent _ _ _ _ _ _ _ Hc Hstep) Hrun) as H2.
    assert (calls i (a :: acts) = returns_at i a + calls i acts) as ->.
    { destruct a; reflexivity. }
    lia.
Qed.

Lemma step_spawned s a s' :
  consistent s -> step s a = Some s' ->
  total is_spawned (workers s') =
    (if is_lock a then 1 else 0) + total is_spawned (workers s) /\
  (if is_lock a then 1 else 0) + sup s <= sup s'.
Proof.
  intros Hc Hstep. destruct Hc.
  destruct a; step_inv Hstep; prep;
    unfold set_sup, set_worker, set_pool, store, do_return;
    cbn [sup workers is_lock];
    try (pose proof (c_fresh0 (sup s) ltac:(lia) ltac:(lia)));
    repeat match goal with
    | |- context [total ?f (<[?i := ?w']> ?ws)] =>
        match goal with
        | H : ws !! i = Some ?w |- _ =>
            let T := fresh "T" in
            pose proof (total_insert f ws i w w' H) as T; simpl in T;
            generalize dependent (total f (<[i := w']> ws)); intros
        end
    end;
    lia.
Qed.

Lemma run_spawned acts : forall s s',
  consistent s -> run acts s = Some s' ->
  total is_spawned (workers s') =
    acquisitions acts + total is_spawned (workers s) /\
  acquisitions acts + sup s <= sup s'.
Proof.
  induction acts as [| a acts IH]; intros s s' Hc Hrun; simpl in Hrun.
  - injection Hrun as <-. unfold acquisitions. simpl. lia.
  - destruct (step s a) as [s1 |] eqn:Hstep; [| discriminate].
    destruct (step_spawned s a s1 Hc Hstep) as [H1 H2].
    destruct (IH s1 s' (step_consistent _ _ _ _ _ _ _ Hc Hstep) Hrun) as [H3 H4].
    assert (acquisitions (a :: acts) =
            (if is_lock a then 1 else 0) + acquisitions acts) as ->.
    { unfold acquisitions. rewrite filter_cons.
      destruct (decide (is_lock a = true)) as [-> | Hn]; [reflexivity |].
      destruct (is_lock a); [congruence | reflexivity]. }
    lia.
Qed.

(** X1. [fn] is called once for every token the supervisor takes and at
    most once for every query: in every schedule [fn(queries[i])] returns
    at most once, the workers started are as many as the tokens taken, and
    the tokens taken are at most the indices the supervisor has passed,
    which are at most [n]. *)
Theorem For_dispatches_at_most_once acts s :
  For zeroR ctx_err fn queries in_locks acts = Some s ->
  (forall i, calls i acts <= 1) /\
  (forall i, length queries <= i -> calls i acts = 0) /\
  total is_spawned (workers s) = acquisitions acts /\
  acquisitions acts <= sup s /\
  sup s <= length queries.
Proof.
  intros Hrun.
  pose proof (init_consistent zeroR fn queries in_locks) as Hc0.
  pose proof (For_consistent zeroR ctx_err fn queries in_locks acts s Hrun) as Hc.
  destruct (run_spawned acts _ s Hc0 Hrun) as [Hsp Hsup].
  assert (Hpot : forall i, calls i acts <= may_call init i).
  { intros i. pose proof (run_may_call acts _ s i Hc0 Hrun). lia. }
  repeat split.
  - intros i. specialize (Hpot i). unfold may_call in Hpot.
    destruct (workers init !! i) as [[] |];
      try destruct (sup init <=? i); lia.
  - intros i Hi. specialize (Hpot i). unfold may_call in Hpot.
    simpl in Hpot.
    assert (replicate (length queries) (@NotSpawned R E) !! i = None) as Hn.
    { apply lookup_ge_None. rewrite length_replicate. exact Hi. }
    rewrite Hn in Hpot. lia.
  - rewrite Hsp. simpl. rewrite total_replicate. simpl. lia.
  - simpl in Hsup. lia.
  - destruct Hc. assumption.
Qed.

Lemma step_has_returned s a s' i :
  consistent s -> step s a = Some s' ->
  has_returned s' i = returns_at i a + has_returned s i.
Proof.
  intros Hc Hstep. destruct Hc.
  destruct a; step_inv Hstep; prep;
    unfold has_returned, returns_at, set_sup, set_worker, set_pool, store,
      do_return;
    cbn [sup workers];
    try (pose proof (c_fresh0 (sup s) ltac:(lia) ltac:(lia)));
    repeat match goal with
    | |- context [<[?j := _]> _ !! ?k] =>
        destruct (decide (j = k));
        [ subst; rewrite list_lookup_insert_eq
            by (eapply lookup_lt_Some; eassumption)
        | rewrite list_lookup_insert_ne by assumption ]
    end;
    repeat match goal with
    | H : workers s !! ?k = Some _ |- context [workers s !! ?k] => rewrite H
    end;
    try destruct (workers s !! i) as [[] |];
    repeat match goal with
    | |- context [?a =? ?b] => destruct (Nat.eqb_spec a b)
    end; try lia.
Qed.

Lemma run_has_returned acts : forall s s' i,
  consistent s -> run acts s = Some s' ->
  has_returned s' i = calls i acts + has_returned s i.
Proof.
  induction acts as [| a acts IH]; intros s s' i Hc Hrun; simpl in Hrun.
  - injection Hrun as <-. reflexivity.
  - destruct (step s a) as [s1 |] eqn:Hstep; [| discriminate].
    pose proof (step_has_returned s a s1 i Hc Hstep) as H1.
    pose proof (IH s1 s' i (step_consistent _ _ _ _ _ _ _ Hc Hstep) Hrun) as H2.
    assert (calls i (a :: acts) = returns_at i a + calls i acts) as ->.
    { destruct a; reflexivity. }
    lia.
Qed.

Lemma step_all_delivered s a s' :
  consistent s -> all_delivered s -> step s a = Some s' -> all_delivered s'.
Proof.
  intros Hc Hd Hstep rs Hret i w Hw.
  destruct (ret s) as [v |] eqn:Hr.
  - (* already returned: only the deferred sends move *)
    pose proof (step_ret_stable ctx_err fn queries s a s' v Hr Hstep) as Hv.
    rewrite Hret in Hv. injection Hv as <-.
    specialize (Hd rs Hr).
    destruct Hc.
    destruct a; step_inv Hstep; prep;
      unfold set_sup, set_worker, set_pool, store, do_return in Hw;
      cbn [workers] in Hw;
      try (pose proof (c_fresh0 (sup s) ltac:(lia) ltac:(lia)));
      try (apply list_lookup_insert_Some in Hw as [(? & ? & ?) | (? & Hw)]);
      subst; eauto;
      match goal with
      | H : workers s !! ?k = Some ?x |- _ =>
          pose proof (Hd k x H) as Hx; simpl in Hx; try discriminate;
          try exact Hx
      end.
  - (* the return itself *)
    destruct a; step_inv Hstep; prep; simpl in Hret; try congruence.
    injection Hret as <-. simpl in Hw.
    destruct Hc.
    match goal with H : ret s = None |- _ => specialize (c_count0 H) end.
    eapply total_full; [apply has_sent_le_1 | | exact Hw]. lia.
Qed.

Lemma run_all_delivered acts : forall s s',
  consistent s -> all_delivered s -> run acts s = Some s' -> all_delivered s'.
Proof.
  induction acts as [| a acts IH]; intros s s' Hc Hd Hrun; simpl in Hrun.
  - injection Hrun as <-. exact Hd.
  - destruct (step s a) as [s1 |] eqn:Hstep; [| discriminate].
    apply (IH s1); [eapply step_consistent; eauto | | exact Hrun].
    eapply step_all_delivered; eauto.
Qed.

(** X2. In every state of a call, the call [fn(queries[i])] has returned
    exactly when the worker of index [i] has left it; and when [For]
    returns a list, [fn] has been called exactly once on every query: no
    query is skipped and none is run twice. *)
Theorem For_list_calls_each_once acts s :
  For zeroR ctx_err fn queries in_locks acts = Some s ->
  (forall i, calls i acts = has_returned s i) /\
  (forall rs, ret s = Some (Some rs, None) ->
     forall i, i < length queries -> calls i acts = 1).
Proof.
  intros Hrun.
  pose proof (init_consistent zeroR fn queries in_locks) as Hc0.
  pose proof (For_consistent zeroR ctx_err fn queries in_locks acts s Hrun) as Hc.
  assert (Hcalls : forall i, calls i acts = has_returned s i).
  { intros i. pose proof (run_has_returned acts _ s i Hc0 Hrun) as H.
    unfold has_returned in H at 2. simpl in H.
    destruct (replicate (length queries) (@NotSpawned R E) !! i) as [w |] eqn:Hw.
    - apply lookup_replicate in Hw as [-> _]. lia.
    - lia. }
  split; [exact Hcalls |].
  intros rs Hret i Hi. rewrite Hcalls.
  assert (Hd : all_delivered s).
  { eapply run_all_delivered; [exact Hc0 | | exact Hrun].
    intros rs' Hr. discriminate. }
  destruct (lookup_lt_is_Some_2 (workers s) i) as [w Hw].
  { destruct Hc. lia. }
  pose proof (Hd rs Hret i w Hw) as Hsent.
  unfold has_returned. rewrite Hw.
  destruct w as [| | | [] | []]; simpl in Hsent; try discriminate; reflexivity.
Qed.

(** X3. An index that the supervisor has passed without starting a worker,
    as it does when it takes the [Done] case, stays without a worker: [fn]
    is never called on that query later in the call. *)
Theorem For_skipped_never_called acts s i acts' s' :
  For zeroR ctx_err fn queries in_locks acts = Some s ->
  workers s !! i = Some NotSpawned -> i < sup s ->
  run acts' s = Some s' ->
  calls i acts' = 0 /\ workers s' !! i = Some NotSpawned.
Proof.
  intros Hrun Hw Hi Hrun'.
  pose proof (For_consistent zeroR ctx_err fn queries in_locks acts s Hrun) as Hc.
  pose proof (run_may_call acts' s s' i Hc Hrun') as Hpot.
  assert (Hzero : may_call s i = 0).
  { unfold may_call. rewrite Hw. destruct (Nat.leb_spec (sup s) i); lia. }
  split; [lia |].
  clear Hpot Hzero Hrun. revert s Hc Hw Hi Hrun'.
  induction acts' as [| a acts' IH]; intros s Hc Hw Hi Hrun'; simpl in Hrun'.
  - injection Hrun' as <-. exact Hw.
  - destruct (step s a) as [s1 |] eqn:Hstep; [| discriminate].
    apply (IH s1); [eapply step_consistent; eauto | | | exact Hrun'].
    + destruct Hc.
      destruct a; step_inv Hstep; prep;
        unfold set_sup, set_worker, set_pool, store, do_return;
        cbn [sup workers]; auto;
        rewrite list_lookup_insert_ne; auto; try lia; congruence.
    + destruct a; step_inv Hstep; simpl; lia.
Qed.

Lemma first_failure_source acts e :
  first_failure fn queries acts = Some e ->
  exists i q, queries !! i = Some q /\ snd (fn q) = Some e.
Proof.
  induction acts as [| a acts IH]; simpl; [discriminate |].
  destruct a; auto.
  destruct (queries !! i) as [q |] eqn:Hq; auto.
  destruct (snd (fn q)) as [e' |] eqn:He; auto.
  intros [= <-]. eauto.
Qed.

(** *** No goroutine is left behind *)

Lemma total_lt_length (f : worker R E -> nat) (ws : list (worker R E)) i w :
  (forall w, f w <= 1) -> ws !! i = Some w -> f w = 0 ->
  total f ws < length ws.
Proof.
  intros Hf. revert i. induction ws as [| x ws IH]; intros [| i] Hi Hw;
    simpl in *; try discriminate.
  - injection Hi as ->.
    pose proof (total_le_length f ws Hf). lia.
  - specialize (IH i Hi Hw). specialize (Hf x). lia.
Qed.

Lemma settled_quiescent s :
  settled queries s -> quiescent ctx_err fn queries s.
Proof.
  intros (Hret & Hsup & Hws) a Ha. unfold Dispatcher.step.
  destruct a; try congruence.
  - destruct (Nat.ltb_spec (sup s) (length queries)); [lia | reflexivity].
  - destruct (Nat.ltb_spec (sup s) (length queries)); [lia | reflexivity].
  - destruct (workers s !! i) as [w |] eqn:Hw; [| reflexivity].
    destruct (Hws i w Hw) as [-> | [b ->]]; reflexivity.
  - destruct (workers s !! i) as [w |] eqn:Hw; [| reflexivity].
    destruct (Hws i w Hw) as [-> | [b ->]]; reflexivity.
  - destruct (workers s !! i) as [w |] eqn:Hw; [| reflexivity].
    destruct (Hws i w Hw) as [-> | [b ->]]; reflexivity.
  - destruct (workers s !! i) as [w |] eqn:Hw; [| reflexivity].
    destruct (Hws i w Hw) as [-> | [b ->]]; reflexivity.
  - destruct (ret s); [reflexivity | congruence].
  - destruct (ret s); [reflexivity | congruence].
Qed.

Lemma settle_or_move s :
  1 <= chan_len in_locks -> chan_len in_locks <= chan_cap in_locks ->
  consistent s ->
  settled queries s \/
  exists a s', a <> ParentCancel /\ step s a = Some s'.
Proof.
  intros Hp Hcap Hc.
  destruct (ret s) as [v |] eqn:Hret.
  2: { right.
       destruct (progress ctx_err fn queries in_locks s Hp Hcap Hc Hret)
         as (a & s' & Ha & Hstep).
       exists a, s'. split; [| exact Hstep]. intros ->. discriminate. }
  destruct Hc. pose proof (c_ret0 v Hret) as Hcan.
  unfold Dispatcher.step.
  destruct (Nat.ltb_spec (sup s) (length queries)) as [Hsup | Hsup].
  { right. exists SupDone.
    destruct (Nat.ltb_spec (sup s) (length queries)); [| lia].
    rewrite Hcan. eexists; split; [discriminate | reflexivity]. }
  pose proof (holds_token_split (workers s)) as Hsplit.
  destruct (Nat.eq_dec (total is_calling (workers s)) 0) as [Hcall | Hcall].
  2: { right.
       destruct (total_pos is_calling (workers s)) as (i & w & Hi & Hw); [lia |].
       destruct w; simpl in Hw; try lia.
       destruct (lookup_lt_is_Some_2 queries i) as [q Hq].
       { apply lookup_lt_Some in Hi. lia. }
       exists (FnReturn i). rewrite Hi, Hq.
       eexists; split; [discriminate | reflexivity]. }
  destruct (Nat.eq_dec (total is_selecting (workers s)) 0) as [Hsel | Hsel].
  2: { right.
       destruct (total_pos is_selecting (workers s)) as (i & w & Hi & Hw); [lia |].
       destruct w as [| | res err | |]; simpl in Hw; try lia.
       exists (WorkerDone i). rewrite Hi, Hcan.
       eexists; split; [discriminate | reflexivity]. }
  destruct (Nat.eq_dec (total is_releasing (workers s)) 0) as [Hrel | Hrel].
  2: { right.
       destruct (total_pos is_releasing (workers s)) as (i & w & Hi & Hw); [lia |].
       destruct w as [| | | b |]; simpl in Hw; try lia.
       exists (Unlock i). rewrite Hi. unfold send.
       destruct (Nat.ltb_spec (chan_len (pool s)) (chan_cap (pool s))); [| lia].
       eexists; split; [discriminate | reflexivity]. }
  left. split; [congruence |]. split; [lia |].
  intros i w Hi.
  pose proof (total_zero _ _ Hcall i w Hi) as H1.
  pose proof (total_zero _ _ Hsel i w Hi) as H2.
  pose proof (total_zero _ _ Hrel i w Hi) as H3.
  destruct w as [| | | b | b]; simpl in *; try lia; eauto.
Qed.

Lemma settled_pool s :
  consistent s -> settled queries s ->
  chan_len (pool s) = chan_len in_locks /\ executing s = 0.
Proof.
  intros Hc (_ & _ & Hws). destruct Hc.
  assert (Hzero : total holds_token (workers s) = 0).
  { clear - Hws. induction (workers s) as [| w ws IH]; [reflexivity |].
    simpl. rewrite IH.
    - destruct (Hws 0 w eq_refl) as [-> | [b ->]]; reflexivity.
    - intros i w' Hi. exact (Hws (S i) w' Hi). }
  pose proof (total_calling_le_holds (workers s)).
  unfold executing. lia.
Qed.

Lemma reaches_settled s :
  1 <= chan_len in_locks -> chan_len in_locks <= chan_cap in_locks ->
  consistent s ->
  exists acts s',
    ~ In ParentCancel acts /\ run acts s = Some s' /\ settled queries s'.
Proof.
  intros Hp Hcap.
  remember (measure queries s) as m eqn:Hm.
  revert s Hm. induction m as [m IH] using lt_wf_ind. intros s -> Hc.
  destruct (settle_or_move s Hp Hcap Hc) as [Hs | (a & s1 & Ha & Hstep)].
  - exists [], s. simpl. auto.
  - destruct (IH _ (step_measure ctx_err fn queries in_locks _ _ _ Hc Hstep)
                s1 eq_refl
                (step_consistent ctx_err fn queries in_locks _ _ _ Hc Hstep))
      as (acts & s' & Hq & Hrun & Hset).
    exists (a :: acts), s'. simpl. rewrite Hstep.
    split; [| auto]. intros [H | H]; [congruence | exact (Hq H)].
Qed.

(** X4. A call leaks neither goroutines nor tokens. From every state of a
    call some schedule leads to a state where nothing can move any more;
    in such a state [For] has returned, the supervisor's loop is over,
    every worker that was started has exited, no call of [fn] is in
    progress and the pool holds the tokens it held when the call began. *)
Theorem For_leaks_nothing acts s :
  1 <= chan_len in_locks -> chan_len in_locks <= chan_cap in_locks ->
  For zeroR ctx_err fn queries in_locks acts = Some s ->
  (quiescent ctx_err fn queries s <-> settled queries s) /\
  (settled queries s ->
     chan_len (pool s) = chan_len in_locks /\ executing s = 0) /\
  exists acts' s',
    ~ In ParentCancel acts' /\
    For zeroR ctx_err fn queries in_locks (acts ++ acts') = Some s' /\
    settled queries s'.
Proof.
  intros Hp Hcap Hrun.
  pose proof (For_consistent zeroR ctx_err fn queries in_locks acts s Hrun) as Hc.
  split; [split |]; [| apply settled_quiescent | split].
  - intros Hq. destruct (settle_or_move s Hp Hcap Hc)
      as [Hs | (a & s1 & Ha & Hstep)]; [exact Hs |].
    rewrite (Hq a Ha) in Hstep. discriminate.
  - apply settled_pool, Hc.
  - destruct (reaches_settled s Hp Hcap Hc) as (acts' & s' & Hq & Hrun' & Hs).
    exists acts', s'. split; [exact Hq |]. split; [| exact Hs].
    unfold For in *. rewrite run_app, Hrun. exact Hrun'.
Qed.

(** X5. No worker is ever blocked: in every state of a call, a worker
    inside [fn] can return, a worker at its select can deliver its
    response or leave through [Done], and the deferred send of a worker
    finds room in the pool. *)
Theorem For_workers_never_block acts s i w :
  chan_len in_locks <= chan_cap in_locks ->
  For zeroR ctx_err fn queries in_locks acts = Some s ->
  workers s !! i = Some w ->
  match w with
  | NotSpawned | Exited _ =>
      forall a, In a [FnReturn i; WorkerDone i; Send i; Unlock i] ->
        step s a = None
  | Calling => exists s', step s (FnReturn i) = Some s'
  | Selecting _ _ =>
      if cancelled s
      then exists s', step s (WorkerDone i) = Some s'
      else exists s', step s (Send i) = Some s'
  | Releasing _ => exists s', step s (Unlock i) = Some s'
  end.
Proof.
  intros Hcap Hrun Hw.
  pose proof (For_consistent zeroR ctx_err fn queries in_locks acts s Hrun) as Hc.
  destruct Hc. unfold Dispatcher.step.
  destruct w as [| | res err | b | b].
  - intros a Ha. simpl in Ha.
    destruct Ha as [<- | [<- | [<- | [<- | []]]]]; rewrite Hw; reflexivity.
  - destruct (lookup_lt_is_Some_2 queries i) as [q Hq].
    { apply lookup_lt_Some in Hw. lia. }
    rewrite Hw, Hq. eexists; reflexivity.
  - destruct (cancelled s) eqn:Hcan.
    + rewrite Hw. eexists; reflexivity.
    + assert (Hret : ret s = None).
      { destruct (ret s) as [v |] eqn:Hr; [| reflexivity].
        pose proof (c_ret0 v eq_refl). congruence. }
      rewrite Hw, Hret.
      pose proof (total_lt_length has_sent (workers s) i _
                    (@has_sent_le_1 R E) Hw eq_refl) as Hlt.
      specialize (c_count0 Hret).
      destruct (Nat.ltb_spec (col s) (length queries)); [| lia].
      destruct err; eexists; reflexivity.
  - rewrite Hw. unfold send.
    pose proof (total_insert holds_token (workers s) i _ (Exited b) Hw) as T.
    simpl in T.
    destruct (Nat.ltb_spec (chan_len (pool s)) (chan_cap (pool s))); [| lia].
    eexists; reflexivity.
  - intros a Ha. simpl in Ha.
    destruct Ha as [<- | [<- | [<- | [<- | []]]]]; rewrite Hw; reflexivity.
Qed.
End ForLedger.

(** ** [For] on the instance that [Downstreamer] builds *)

Section FreshInstance.
Import Ledger.
Local Open Scope nat_scope.
Context {Ctx Handler Err Q R E : Type}.
Variable TenantID : Ctx -> string * option Err.
Variable zeroR : R.
Variable ctx_err : E.
Variable fn : Q -> R * option E.

Lemma Downstreamer_Some (h : DownstreamHandler Ctx Handler) ctx inst :
  Downstreamer TenantID h ctx = Some inst ->
  parallelism inst = resolve_parallelism TenantID h ctx /\
  (1 <= parallelism inst)%Z /\
  chan_cap (locks inst) = Z.to_nat (parallelism inst) /\
  chan_len (locks inst) = Z.to_nat (parallelism inst).
Proof.
  unfold Downstreamer.
  pose proof (resolve_parallelism_pos TenantID h ctx) as Hpos.
  rewrite fill_adds by (simpl; lia). intros [= <-]. simpl.
  repeat split; auto.
Qed.

Lemma calling_le_spawned (ws : list (worker R E)) :
  total is_calling ws <= total is_spawned ws.
Proof.
  induction ws as [| w ws IH]; simpl; [lia |]. destruct w; simpl; lia.
Qed.

(** X6. Every call of [For] on the instance that [Downstreamer] builds
    returns, whatever the limits of the tenant: the bound is at least 1,
    so the supervisor is never stuck on an empty pool. After the return
    the call can settle, and the pool then holds all [parallelism] tokens
    again. *)
Theorem Downstreamer_For_returns (h : DownstreamHandler Ctx Handler) ctx inst
    (queries : list Q) acts s :
  Downstreamer TenantID h ctx = Some inst ->
  For zeroR ctx_err fn queries (locks inst) acts = Some s ->
  (exists acts' s',
     ~ In ParentCancel acts' /\
     For zeroR ctx_err fn queries (locks inst) (acts ++ acts') = Some s' /\
     ret s' <> None) /\
  (exists acts' s',
     ~ In ParentCancel acts' /\
     For zeroR ctx_err fn queries (locks inst) (acts ++ acts') = Some s' /\
     settled queries s' /\
     Z.of_nat (chan_len (pool s')) = parallelism inst).
Proof.
  intros Hd Hrun.
  destruct (Downstreamer_Some h ctx inst Hd) as (_ & Hpos & Hcap & Hlen).
  assert (Hp : 1 <= chan_len (locks inst)) by lia.
  assert (Hc : chan_len (locks inst) <= chan_cap (locks inst)) by lia.
  split.
  - apply (For_returns zeroR ctx_err fn queries (locks inst) acts s Hp Hc Hrun).
  - pose proof (For_consistent zeroR ctx_err fn queries _ acts s Hrun) as Hcons.
    destruct (reaches_settled ctx_err fn queries (locks inst) s Hp Hc Hcons)
      as (acts' & s' & Hq & Hrun' & Hs).
    exists acts', s'. split; [exact Hq |].
    assert (Hfull : For zeroR ctx_err fn queries (locks inst) (acts ++ acts')
                    = Some s').
    { unfold For in *. rewrite run_app, Hrun. exact Hrun'. }
    split; [exact Hfull |]. split; [exact Hs |].
    pose proof (For_consistent zeroR ctx_err fn queries _ _ s' Hfull) as Hcons'.
    destruct (settled_pool fn queries (locks inst) s' Hcons' Hs) as [Hpool _].
    lia.
Qed.

(** X7. On the instance that [Downstreamer] builds, the calls of [fn] in
    progress are never more than the bound resolved for the tenant, never
    more than 128 when the tenant cannot be resolved, and never more than
    the number of queries. *)
Theorem Downstreamer_For_bounded (h : DownstreamHandler Ctx Handler) ctx inst
    (queries : list Q) acts s :
  Downstreamer TenantID h ctx = Some inst ->
  For zeroR ctx_err fn queries (locks inst) acts = Some s ->
  (Z.of_nat (executing s) <= resolve_parallelism TenantID h ctx)%Z /\
  (snd (TenantID ctx) <> None -> executing s <= 128) /\
  executing s <= length queries.
Proof.
  intros Hd Hrun.
  destruct (Downstreamer_Some h ctx inst Hd) as (Hpar & Hpos & Hcap & Hlen).
  pose proof (For_consistent zeroR ctx_err fn queries _ acts s Hrun) as Hcons.
  pose proof (total_calling_le_holds (workers s)) as Hle.
  assert (Hb : (Z.of_nat (executing s) <= resolve_parallelism TenantID h ctx)%Z).
  { destruct Hcons. unfold executing. lia. }
  split; [exact Hb |]. split.
  - intros Herr. unfold resolve_parallelism, DefaultDownstreamConcurrency in Hb.
    destruct (TenantID ctx) as [user [e |]]; [lia | simpl in Herr; congruence].
  - pose proof (calling_le_spawned (workers s)) as Hsp.
    destruct (run_spawned ctx_err fn queries (locks inst) acts _ s
                (init_consistent zeroR fn queries (locks inst)) Hrun)
      as [Heq Hsup].
    simpl in Heq, Hsup. rewrite total_replicate in Heq. simpl in Heq.
    destruct Hcons. unfold executing. lia.
Qed.
End FreshInstance.

(** ** [Downstream] *)

Section DownstreamProperties.
Import Request Response Downstream.
Local Open Scope nat_scope.
Context {Time Shards float64 Stream Stats Headers : Type}.
Variable zeroStats : Stats.
Variable nilHeaders : Headers.
Variable Encode : Shards -> list string.
Variable GetRangeType : Params Time -> QueryRangeType.
Variable WithQuery : Req Time -> string -> Req Time.
Variable Do : Req Time -> Resp float64 Stream Stats Headers * option string.
Variable ctx_err : string.

Local Abbreviation Result := (Result float64 Stream Stats Headers).
Local Abbreviation zeroResult :=
  (zeroResult float64 Stream Stats Headers zeroStats nilHeaders).
Local Abbreviation ResponseToResult :=
  (ResponseToResult float64 Stream Stats Headers zeroStats nilHeaders).
Local Abbreviation work :=
  (work Time Shards float64 Stream Stats Headers zeroStats nilHeaders
        Encode GetRangeType WithQuery Do).
Local Abbreviation request_of :=
  (request_of Time Shards Encode GetRangeType WithQuery).
Local Abbreviation runs_as :=
  (runs_as Time Shards float64 Stream Stats Headers zeroStats nilHeaders
           Encode GetRangeType WithQuery Do).

(** What a returned pair says about the response. *)
Lemma ResponseToResult_returns_inv resp res oe :
  ResponseToResult resp = Returns (res, oe) ->
  match oe with
  | Some e => res = zeroResult /\ has_error resp = true /\ e <> EmptyString
  | None =>
      has_error resp = false /\
      rHeaders _ _ _ _ res = GetHeaders _ _ _ _ resp /\
      Data _ _ _ _ res <> None /\
      match resp with
      | OfLoki _ _ _ _ r =>
          Statistics _ _ _ _ res = lStatistics _ _ _ r /\
          Data _ _ _ _ res = Some (Streams _ _ (lResult _ _ _ r))
      | OfProm _ _ _ _ r => Statistics _ _ _ _ res = pStatistics _ _ _ r
      | _ => False
      end
  end.
Proof.
  unfold Response.ResponseToResult, has_error.
  destruct resp as [r | r | ty h | h | h | st h]; try discriminate.
  - destruct (lError _ _ _ r) as [| c msg] eqn:He; simpl.
    + intros [= <- <-]. simpl. repeat split; auto; discriminate.
    + intros [= <- <-]. repeat split.
      unfold errorf_type_msg. destruct (lErrorType _ _ _ r); discriminate.
  - destruct (pError _ _ _ r) as [| c msg] eqn:He; simpl.
    + destruct (String.eqb (pResultType _ _ _ r) ResultTypeVector).
      * destruct (sampleStreamToVector _ _ (pResult _ _ _ r)); [| discriminate].
        intros [= <- <-]. simpl. repeat split; auto; discriminate.
      * intros [= <- <-]. simpl. repeat split; auto; discriminate.
    + intros [= <- <-]. repeat split.
      unfold errorf_type_msg. destruct (pErrorType _ _ _ r); discriminate.
  - intros [= <- <-]. repeat split. discriminate.
Qed.

(** X8. [ResponseToResult] never returns data together with an error: with
    an error comes the zero [Result], and the response was one with an
    error message or of an unrecognised type; without an error the result
    has a payload and the headers of the response, and the response was
    of a recognised type and had no error message. *)
Theorem ResponseToResult_never_both resp res oe :
  ResponseToResult resp = Returns (res, oe) ->
  (oe <> None /\ res = zeroResult /\ has_error resp = true) \/
  (oe = None /\ Data _ _ _ _ res <> None /\
   rHeaders _ _ _ _ res = GetHeaders _ _ _ _ resp /\
   has_error resp = false).
Proof.
  intros Hres. pose proof (ResponseToResult_returns_inv resp res oe Hres) as H.
  destruct oe as [e |].
  - left. destruct H as (-> & Herr & _). repeat split; auto; discriminate.
  - right. destruct H as (Herr & Hh & Hd & _). auto.
Qed.

Lemma work_returns q r oe :
  work q = Returns (r, oe) ->
  match oe with
  | Some msg =>
      r = zeroResult /\
      (snd (Do (request_of q)) = Some msg \/
       (snd (Do (request_of q)) = None /\
        has_error (fst (Do (request_of q))) = true /\
        ResponseToResult (fst (Do (request_of q))) = Returns (r, Some msg)))
  | None =>
      snd (Do (request_of q)) = None /\
      has_error (fst (Do (request_of q))) = false /\
      ResponseToResult (fst (Do (request_of q))) = Returns (r, None)
  end.
Proof.
  unfold Downstream.work. fold (request_of q).
  destruct (Do (request_of q)) as [resp [err |]]; simpl.
  - intros [= <- <-]. auto.
  - intros Hres. pose proof (ResponseToResult_returns_inv resp r oe Hres) as Hinv.
    destruct oe as [msg |].
    + destruct Hinv as (-> & Herr & _). split; [reflexivity |]. right. auto.
    + destruct Hinv as (Herr & _). auto.
Qed.

(** X9. When [Downstream] returns a list, it has one result per query and
    result [i] is the translation of the response the handler gave to the
    request of query [i]; that call of the handler returned no error and
    its response was of a recognised type without error message. *)
Theorem Downstream_results queries fn in_locks acts s rs :
  runs_as queries fn ->
  For zeroResult ctx_err fn queries in_locks acts = Some s ->
  ret s = Some (Some rs, None) ->
  length rs = length queries /\
  forall i q, queries !! i = Some q ->
    exists resp res,
      Do (request_of q) = (resp, None) /\
      has_error resp = false /\
      ResponseToResult resp = Returns (res, None) /\
      rs !! i = Some res.
Proof.
  intros Hfn Hrun Hret.
  destruct (returned_value ctx_err fn queries in_locks acts _ s _ _
              (init_consistent zeroResult fn queries in_locks) eq_refl Hrun Hret)
    as [(Hl & _ & Hall & _) | [(Hl & _) | (Hl & _)]]; try discriminate.
  injection Hl as ->. unfold expected.
  split; [apply length_map |].
  intros i q Hq. pose proof (Hfn i q Hq) as Hw. pose proof (Hall i q Hq) as Hok.
  destruct (fn q) as [r oe] eqn:Hfq. simpl in Hok. subst oe.
  destruct (work_returns q r None Hw) as (Hdo & Herr & Htr).
  exists (fst (Do (request_of q))), r.
  repeat split; auto.
  - destruct (Do (request_of q)) as [resp oe]. simpl in *. congruence.
  - rewrite lookup_map, Hq. simpl. rewrite Hfq. reflexivity.
Qed.

(** X10. When the handler fails on the request of some query, or answers it
    with a response that carries an error message or is of an unrecognised
    type, [Downstream] returns no list but an error, and it does return:
    whatever it returns is no list and an error, the error being the
    handler's or the translator's for one of the queries, or the context's
    after the caller cancelled; and from every state of the call a
    schedule in which the caller does not cancel leads to the return. *)
Theorem Downstream_all_or_nothing queries fn in_locks j qj acts s :
  runs_as queries fn ->
  queries !! j = Some qj ->
  snd (Do (request_of qj)) <> None \/
    has_error (fst (Do (request_of qj))) = true ->
  1 <= chan_len in_locks -> chan_len in_locks <= chan_cap in_locks ->
  For zeroResult ctx_err fn queries in_locks acts = Some s ->
  (forall l e, ret s = Some (l, e) ->
     l = None /\
     exists msg, e = Some msg /\
       ((msg = ctx_err /\ In ParentCancel acts) \/
        exists i q, queries !! i = Some q /\
          (snd (Do (request_of q)) = Some msg \/
           exists r, ResponseToResult (fst (Do (request_of q)))
                     = Returns (r, Some msg)))) /\
  length acts <= 5 * length queries + 2 /\
  exists acts' s' l e,
    ~ In ParentCancel acts' /\
    For zeroResult ctx_err fn queries in_locks (acts ++ acts') = Some s' /\
    ret s' = Some (l, e) /\ l = None /\ e <> None.
Proof.
  intros Hfn Hj Hbad Hp Hcap Hrun.
  assert (Hfail : snd (fn qj) <> None).
  { pose proof (Hfn j qj Hj) as Hw.
    destruct (fn qj) as [r [msg |]]; [discriminate |].
    destruct (work_returns qj r None Hw) as (Hdo & Herr & _).
    destruct Hbad; congruence. }
  assert (Hpair : forall acts0 s0 l e,
            For zeroResult ctx_err fn queries in_locks acts0 = Some s0 ->
            ret s0 = Some (l, e) ->
            l = None /\
            exists msg, e = Some msg /\
              ((msg = ctx_err /\ In ParentCancel acts0) \/
               exists i q, queries !! i = Some q /\
                 (snd (Do (request_of q)) = Some msg \/
                  exists r, ResponseToResult (fst (Do (request_of q)))
                            = Returns (r, Some msg)))).
  { intros acts0 s0 l e Hrun0 Hret.
    destruct (returned_value ctx_err fn queries in_locks acts0 _ s0 l e
                (init_consistent zeroResult fn queries in_locks) eq_refl
                Hrun0 Hret)
      as [(_ & _ & Hall & _) | [(-> & -> & Hne) | (-> & -> & [Hcan | Hin])]].
    - destruct Hfail. exact (Hall j qj Hj).
    - split; [reflexivity |].
      destruct (first_failure fn queries acts0) as [msg |] eqn:Hff;
        [| congruence].
      exists msg. split; [reflexivity |]. right.
      destruct (first_failure_source fn queries acts0 msg Hff)
        as (i & q & Hq & Hmsg).
      exists i, q. split; [exact Hq |].
      pose proof (Hfn i q Hq) as Hw.
      destruct (fn q) as [r oe]. simpl in Hmsg. subst oe.
      destruct (work_returns q r (Some msg) Hw) as (_ & [Hdo | (_ & _ & Htr)]);
        eauto.
    - discriminate.
    - split; [reflexivity |]. exists ctx_err. auto. }
  split; [intros l e Hret; exact (Hpair acts s l e Hrun Hret) |].
  destruct (For_returns zeroResult ctx_err fn queries in_locks acts s
              Hp Hcap Hrun) as (Hlen & acts' & s' & Hq & Hrun' & Hret').
  split; [exact Hlen |].
  destruct (ret s') as [[l e] |] eqn:Hr; [| congruence].
  exists acts', s', l, e. split; [exact Hq |]. split; [exact Hrun' |].
  split; [exact Hr |].
  destruct (Hpair _ _ l e Hrun' Hr) as (Hl & msg & -> & _).
  split; [exact Hl | discriminate].
Qed.
End DownstreamProperties.

(** ** The two shapes of a sample-stream result *)

Section ShapeProperties.
Import Response.
Context {float64 Stream : Type}.

Local Abbreviation SampleStream := (SampleStream float64).
Local Abbreviation sampleStreamToVector :=
  (sampleStreamToVector float64 Stream).
Local Abbreviation sampleStreamToMatrix :=
  (sampleStreamToMatrix float64 Stream).

(** X11. The vector keeps of a stream its labels and its first sample only:
    two lists of streams that agree on these, stream by stream, give the
    same vector, or both panic. Samples after the first are dropped. *)
Theorem sampleStreamToVector_first_sample_only (xs ys : list SampleStream) :
  Forall2 (fun a b => Labels _ a = Labels _ b /\
                      head (Samples _ a) = head (Samples _ b)) xs ys ->
  sampleStreamToVector xs = sampleStreamToVector ys.
Proof.
  intros H. unfold Response.sampleStreamToVector.
  assert (Heq : vector_of float64 xs = vector_of float64 ys).
  { induction H as [| a b xs ys [Hl Hh] _ IH]; simpl; [reflexivity |].
    rewrite IH, Hl.
    destruct (Samples _ a) as [| a0 ?], (Samples _ b) as [| b0 ?];
      simpl in Hh; try discriminate; [reflexivity |].
    injection Hh as ->. reflexivity. }
  rewrite Heq. reflexivity.
Qed.

(** X12. On streams of exactly one sample each, the two shapes carry the
    same data: the vector and the matrix have one entry per stream, with
    the same labels, and the only point of series [i] is the point of
    vector entry [i]. *)
Theorem vector_matrix_agree (streams : list SampleStream) :
  Forall (fun st => length (Samples _ st) = 1%nat) streams ->
  exists xs ms,
    sampleStreamToVector streams = Returns (Vector _ _ xs) /\
    sampleStreamToMatrix streams = Matrix _ _ ms /\
    length xs = length streams /\ length ms = length streams /\
    forall i x, xs !! i = Some x ->
      ms !! i = Some {| Metric := sMetric _ x; Points := [sPoint _ x] |}.
Proof.
  intros H. unfold Response.sampleStreamToVector, Response.sampleStreamToMatrix.
  induction H as [| st rest Hst _ IH]; simpl.
  - exists [], []. repeat split. intros i x Hi. discriminate.
  - destruct IH as (xs & ms & Hv & Hm & Hlx & Hlm & Hpt).
    destruct (vector_of float64 rest) as [xs' |]; [| discriminate].
    injection Hv as <-. injection Hm as <-.
    destruct (Samples _ st) as [| s0 [| s1 more]] eqn:Hs; simpl in Hst;
      try discriminate.
    eexists; eexists. split; [reflexivity |]. split; [reflexivity |].
    split; [simpl; lia |]. split; [simpl; lia |].
    intros [| i] x Hi; simpl in *.
    + injection Hi as <-. reflexivity.
    + apply Hpt, Hi.
Qed.
End ShapeProperties.

(** ** Durations in the range request *)

Section DurationProperties.
Import Request.
Local Open Scope Z_scope.
Context {Time Shards : Type}.
Variable Encode : Shards -> list string.
Variable GetRangeType : Params Time -> QueryRangeType.

(** X13. The range request carries step and interval in whole milliseconds,
    cut towards zero: a duration of a whole number of milliseconds is
    carried exactly, a non-negative one loses less than a millisecond,
    and, in particular, one below a millisecond becomes 0. *)
Theorem ParamsToLokiRequest_milliseconds (params : Params Time)
    (shards : Shards) :
  GetRangeType params = RangeType ->
  exists r,
    ParamsToLokiRequest Encode GetRangeType params shards = Range r /\
    (forall ms, Step params = ms * 1000000 -> rStep _ r = ms) /\
    (forall ms, Interval params = ms * 1000000 -> rInterval _ r = ms) /\
    (0 <= Step params ->
       0 <= rStep _ r /\
       rStep _ r * 1000000 <= Step params < (rStep _ r + 1) * 1000000) /\
    (0 <= Interval params ->
       0 <= rInterval _ r /\
       rInterval _ r * 1000000 <= Interval params
         < (rInterval _ r + 1) * 1000000) /\
    (0 <= Step params < 1000000 -> rStep _ r = 0) /\
    (Step params <= 0 ->
       rStep _ r <= 0 /\
       (rStep _ r - 1) * 1000000 < Step params <= rStep _ r * 1000000).
Proof.
  intros Hty. unfold ParamsToLokiRequest. rewrite Hty. simpl.
  eexists; split; [reflexivity |]. simpl.
  repeat split.
  - intros ms ->. apply Milliseconds_whole.
  - intros ms ->. apply Milliseconds_whole.
  - unfold Milliseconds. apply Z.quot_pos; lia.
  - apply Milliseconds_truncates; assumption.
  - apply Milliseconds_truncates; assumption.
  - unfold Milliseconds. apply Z.quot_pos; lia.
  - apply Milliseconds_truncates; assumption.
  - apply Milliseconds_truncates; assumption.
  - intros [H0 H1]. unfold Milliseconds. apply Z.quot_small. lia.
  - unfold Milliseconds.
    pose proof (Z.quot_rem' (Step params) 1000000) as Hqr.
    pose proof (Z.rem_bound_pos_neg (Step params) 1000000 ltac:(lia) H). lia.
  - unfold Milliseconds.
    pose proof (Z.quot_rem' (Step params) 1000000) as Hqr.
    pose proof (Z.rem_bound_pos_neg (Step params) 1000000 ltac:(lia) H). lia.
  - unfold Milliseconds.
    pose proof (Z.quot_rem' (Step params) 1000000) as Hqr.
    pose proof (Z.rem_bound_pos_neg (Step params) 1000000 ltac:(lia) H). lia.
Qed.
End DurationProperties.

(** ** The further properties at concrete inputs *)

Section MoreWitnesses.
Import Request Response Downstream Ledger.
Local Open Scope nat_scope.

Local Abbreviation plain := (fun q : nat => (q, @None string)).
Local Abbreviation one_token := ({| chan_cap := 1; chan_len := 1 |}).

(** Three queries on one token, the second call still in progress. *)
Lemma For_dispatches_at_most_once_witness :
  let queries := [10; 20; 30] in
  let acts := [SupLock; FnReturn 0; Send 0; Unlock 0; SupLock; FnReturn 1] in
  exists s,
    For 0 "context canceled" plain queries one_token acts = Some s /\
    (forall i, calls i acts <= 1) /\
    (forall i, length queries <= i -> calls i acts = 0) /\
    total is_spawned (workers s) = acquisitions acts /\
    acquisitions acts <= sup s /\
    sup s <= length queries.
Proof.
  intros queries acts. eexists.
  split; [vm_compute; reflexivity |].
  apply (For_dispatches_at_most_once 0 "context canceled" plain queries
           one_token acts).
  vm_compute. reflexivity.
Defined.

(** Two queries on one token: first with the second call still in
    progress, then with both delivered. *)
Lemma For_list_calls_each_once_witness :
  let queries := [10; 20] in
  let acts := [SupLock; FnReturn 0; Send 0; Unlock 0; SupLock] in
  let rest := [FnReturn 1; Send 1; ColReturn] in
  exists s s',
    For 0 "context canceled" plain queries one_token acts = Some s /\
    For 0 "context canceled" plain queries one_token (acts ++ rest)
      = Some s' /\
    workers s !! 1 = Some Calling /\
    (calls 0 acts = 1 /\ calls 1 acts = 0) /\
    (forall i, calls i acts = has_returned s i) /\
    ret s' = Some (Some [10; 20], None) /\
    (forall i, i < length queries -> calls i (acts ++ rest) = 1).
Proof.
  intros queries acts rest.
  destruct (For 0 "context canceled" plain queries one_token acts)
    as [s |] eqn:Hrun; [| vm_compute in Hrun; discriminate].
  destruct (For 0 "context canceled" plain queries one_token (acts ++ rest))
    as [s' |] eqn:Hrun'; [| vm_compute in Hrun'; discriminate].
  exists s, s'. split; [reflexivity |]. split; [reflexivity |].
  split; [vm_compute in Hrun; injection Hrun as <-; reflexivity |].
  split; [split; reflexivity |].
  assert (Hret : ret s' = Some (Some [10; 20], None)).
  { vm_compute in Hrun'. injection Hrun' as <-. reflexivity. }
  split; [| split; [exact Hret |]].
  - apply (For_list_calls_each_once 0 "context canceled" plain queries
             one_token acts s Hrun).
  - exact (proj2 (For_list_calls_each_once 0 "context canceled" plain queries
                    one_token (acts ++ rest) s' Hrun') [10; 20] Hret).
Defined.

(** The caller cancels, the supervisor takes [Done] at index 0 and then a
    token at index 1. *)
Lemma For_skipped_never_called_witness :
  let queries := [10; 20; 30] in
  let acts := [ParentCancel; SupDone] in
  let acts' := [SupLock; FnReturn 1; WorkerDone 1; Unlock 1; ColDone] in
  exists s s',
    For 0 "context canceled" plain queries one_token acts = Some s /\
    workers s !! 0 = Some NotSpawned /\
    0 < sup s /\
    run "context canceled" plain queries acts' s = Some s' /\
    calls 0 acts' = 0 /\ workers s' !! 0 = Some NotSpawned.
Proof.
  intros queries acts acts'. eexists. eexists.
  split; [vm_compute; reflexivity |].
  split; [reflexivity |]. split; [simpl; lia |].
  split; [vm_compute; reflexivity |].
  eapply (For_skipped_never_called 0 "context canceled" plain queries
            one_token acts _ 0 acts').
  - vm_compute. reflexivity.
  - reflexivity.
  - simpl. lia.
  - vm_compute. reflexivity.
Defined.

(** One worker started, nothing returned yet. *)
Lemma For_leaks_nothing_witness :
  let queries := [10; 20; 30] in
  let acts := [SupLock] in
  exists s,
    For 0 "context canceled" plain queries one_token acts = Some s /\
    (quiescent "context canceled" plain queries s <-> settled queries s) /\
    (settled queries s ->
       chan_len (pool s) = chan_len one_token /\ executing s = 0) /\
    exists acts' s',
      ~ In ParentCancel acts' /\
      For 0 "context canceled" plain queries one_token (acts ++ acts')
        = Some s' /\
      settled queries s'.
Proof.
  intros queries acts. eexists.
  split; [vm_compute; reflexivity |].
  apply (For_leaks_nothing 0 "context canceled" plain queries one_token acts).
  - simpl. lia.
  - simpl. lia.
  - vm_compute. reflexivity.
Defined.

(** A worker at its select before the return: it can deliver. *)
Lemma For_workers_never_block_witness :
  let queries := [10; 20; 30] in
  let acts := [SupLock; FnReturn 0] in
  exists s,
    For 0 "context canceled" plain queries one_token acts = Some s /\
    workers s !! 0 = Some (Selecting 10 None) /\
    cancelled s = false /\
    if cancelled s
    then exists s',
           step "context canceled" plain queries s (WorkerDone 0) = Some s'
    else exists s',
           step "context canceled" plain queries s (Send 0) = Some s'.
Proof.
  intros queries acts. eexists.
  split; [vm_compute; reflexivity |].
  split; [reflexivity |]. split; [reflexivity |].
  eapply (For_workers_never_block 0 "context canceled" plain queries one_token
            acts _ 0 (Selecting 10 None)).
  - simpl. lia.
  - vm_compute. reflexivity.
  - reflexivity.
Defined.

Local Abbreviation tenant_of := (fun ctx : string => (ctx, @None string)).
Local Abbreviation limits :=
  ({| MaxQueryParallelism := fun (_ : string) user =>
        if String.eqb user "tenant-a" then 2%Z else 0%Z;
      next := tt |}).

(** A tenant limited to two calls at once, three queries. *)
Lemma Downstreamer_For_returns_witness :
  let queries := [10; 20; 30] in
  let acts := [SupLock; SupLock; FnReturn 1] in
  exists inst s,
    Downstreamer tenant_of limits "tenant-a" = Some inst /\
    For 0 "context canceled" plain queries (locks inst) acts = Some s /\
    (exists acts' s',
       ~ In ParentCancel acts' /\
       For 0 "context canceled" plain queries (locks inst) (acts ++ acts')
         = Some s' /\
       ret s' <> None) /\
    (exists acts' s',
       ~ In ParentCancel acts' /\
       For 0 "context canceled" plain queries (locks inst) (acts ++ acts')
         = Some s' /\
       settled queries s' /\
       Z.of_nat (chan_len (pool s')) = parallelism inst).
Proof.
  intros queries acts. eexists. eexists.
  split; [vm_compute; reflexivity |].
  split; [vm_compute; reflexivity |].
  eapply (Downstreamer_For_returns tenant_of 0 "context canceled" plain limits
           "tenant-a" _ queries acts).
  - vm_compute. reflexivity.
  - vm_compute. reflexivity.
Defined.

Lemma Downstreamer_For_bounded_witness :
  let queries := [10; 20; 30] in
  let acts := [SupLock; SupLock; FnReturn 1] in
  exists inst s,
    Downstreamer tenant_of limits "tenant-a" = Some inst /\
    For 0 "context canceled" plain queries (locks inst) acts = Some s /\
    executing s = 1 /\
    (Z.of_nat (executing s) <= resolve_parallelism tenant_of limits "tenant-a")%Z /\
    (snd (tenant_of "tenant-a") <> None -> executing s <= 128) /\
    executing s <= length queries.
Proof.
  intros queries acts. eexists. eexists.
  split; [vm_compute; reflexivity |].
  split; [vm_compute; reflexivity |].
  split; [reflexivity |].
  eapply (Downstreamer_For_bounded tenant_of 0 "context canceled" plain limits
           "tenant-a" _ queries acts).
  - vm_compute. reflexivity.
  - vm_compute. reflexivity.
Defined.

(** Streams whose later samples differ. *)
Lemma sampleStreamToVector_first_sample_only_witness :
  let xs : list (SampleStream Z) :=
    [ {| Labels := [ {| laName := "job"; laValue := "api" |} ];
         Samples := [ {| sValue := 7%Z; TimestampMs := 1000%Z |};
                      {| sValue := 8%Z; TimestampMs := 2000%Z |} ] |} ] in
  let ys : list (SampleStream Z) :=
    [ {| Labels := [ {| laName := "job"; laValue := "api" |} ];
         Samples := [ {| sValue := 7%Z; TimestampMs := 1000%Z |} ] |} ] in
  Forall2 (fun a b => Labels _ a = Labels _ b /\
                      head (Samples _ a) = head (Samples _ b)) xs ys /\
  sampleStreamToVector Z string xs = sampleStreamToVector Z string ys.
Proof.
  intros xs ys.
  assert (H : Forall2 (fun a b => Labels _ a = Labels _ b /\
                         head (Samples _ a) = head (Samples _ b)) xs ys).
  { repeat constructor. }
  split; [exact H |].
  apply (sampleStreamToVector_first_sample_only (Stream := string) xs ys H).
Defined.

Lemma vector_matrix_agree_witness :
  let streams : list (SampleStream Z) :=
    [ {| Labels := [ {| laName := "job"; laValue := "api" |} ];
         Samples := [ {| sValue := 7%Z; TimestampMs := 1000%Z |} ] |};
      {| Labels := [ {| laName := "job"; laValue := "db" |} ];
         Samples := [ {| sValue := 8%Z; TimestampMs := 1000%Z |} ] |} ] in
  Forall (fun st => length (Samples _ st) = 1) streams /\
  exists xs ms,
    sampleStreamToVector Z string streams = Returns (Vector _ _ xs) /\
    sampleStreamToMatrix Z string streams = Matrix _ _ ms /\
    length xs = length streams /\ length ms = length streams /\
    forall i x, xs !! i = Some x ->
      ms !! i = Some {| Metric := sMetric _ x; Points := [sPoint _ x] |}.
Proof.
  intros streams.
  assert (H : Forall (fun st => length (Samples _ st) = 1) streams).
  { repeat constructor. }
  split; [exact H |].
  apply (vector_matrix_agree (Stream := string) streams H).
Defined.

(** A step of 1.5 ms and an interval of 5 s. *)
Lemma ParamsToLokiRequest_milliseconds_witness :
  let GetRangeType := fun _ : Params Z => RangeType in
  let Encode := fun sh : list string => sh in
  let params := {| Query := "{app=~.+}"; Limit := 100%Z;
                   Start := 0%Z; End_ := 3600%Z;
                   Step := 1500000%Z; Interval := 5000000000%Z;
                   Dir := FORWARD |} in
  GetRangeType params = RangeType /\
  exists r,
    ParamsToLokiRequest Encode GetRangeType params [] = Range r /\
    rStep _ r = 1%Z /\ rInterval _ r = 5000%Z.
Proof.
  intros GetRangeType Encode params. split; [reflexivity |].
  destruct (ParamsToLokiRequest_milliseconds Encode GetRangeType params []
              eq_refl)
    as (r & Hr & _ & Hiv & Hstep & _).
  exists r. split; [exact Hr |]. split.
  - destruct (Hstep ltac:(simpl; lia)) as (H0 & H1 & H2). simpl in H1, H2. lia.
  - apply Hiv. reflexivity.
Defined.

Local Abbreviation resp_t := (Resp Z string Z (list string)).
Local Abbreviation result_t := (Result Z string Z (list string)).

(** A log-stream response with an error message. *)
Lemma ResponseToResult_never_both_witness :
  let resp : resp_t :=
    OfLoki _ _ _ _ {| lError := "too many outstanding requests";
                      lErrorType := "execution";
                      lResult := ["{app=x} line"]; lStatistics := 3%Z;
                      lHeaders := [] |} in
  let res : result_t := zeroResult Z string Z (list string) 0%Z [] in
  let oe := Some "execution: too many outstanding requests" in
  ResponseToResult Z string Z (list string) 0%Z [] resp = Returns (res, oe) /\
  ((oe <> None /\ res = zeroResult Z string Z (list string) 0%Z [] /\
    has_error resp = true) \/
   (oe = None /\ Data _ _ _ _ res <> None /\
    rHeaders _ _ _ _ res = GetHeaders _ _ _ _ resp /\
    has_error resp = false)).
Proof.
  intros resp res oe. split; [reflexivity |].
  apply (ResponseToResult_never_both 0%Z [] resp res oe). reflexivity.
Defined.

(** A handler that answers every request with one log stream named after
    the query text, and fails on the query text [bad]. *)
Local Abbreviation with_query :=
  (fun (r : Req Z) (q : string) =>
     match r with
     | Instant r =>
         Instant {| iQuery := q; iLimit := iLimit _ r; iTimeTs := iTimeTs _ r;
                    iDirection := iDirection _ r; iPath := iPath _ r;
                    iShards := iShards _ r |}
     | Range r =>
         Range {| rQuery := q; rLimit := rLimit _ r; rStep := rStep _ r;
                  rInterval := rInterval _ r; rStartTs := rStartTs _ r;
                  rEndTs := rEndTs _ r; rDirection := rDirection _ r;
                  rPath := rPath _ r; rShards := rShards _ r |}
     end).
Local Abbreviation query_of :=
  (fun r : Req Z =>
     match r with Instant r => iQuery _ r | Range r => rQuery _ r end).
Local Abbreviation handler_do :=
  (fun r : Req Z =>
     if String.eqb (query_of r) "bad"
     then (Other Z string Z (list string) "<nil>" [], Some "handler failed")
     else (OfLoki _ _ _ _ {| lError := EmptyString; lErrorType := EmptyString;
                             lResult := [query_of r]; lStatistics := 1%Z;
                             lHeaders := [] |}, @None string)).
Local Abbreviation range_type := (fun _ : Params Z => RangeType).
Local Abbreviation encode := (fun sh : list string => sh).
Local Abbreviation qry :=
  (fun e : string =>
     {| Expr := e;
        qParams := {| Query := "{app=~.+}"; Limit := 100%Z; Start := 0%Z;
                      End_ := 3600%Z; Step := 1000000%Z; Interval := 0%Z;
                      Dir := FORWARD |};
        qShards := ["0_of_2"] |}).
Local Abbreviation closure :=
  (fun q : DownstreamQuery Z (list string) =>
     if String.eqb (Expr q) "bad"
     then (zeroResult Z string Z (list string) 0%Z [], Some "handler failed")
     else ({| Statistics := 1%Z; Data := Some (Streams _ _ [Expr q]);
              rHeaders := [] |}, @None string)).

Lemma closure_runs queries :
  runs_as Z (list string) Z string Z (list string) 0%Z [] encode range_type
    with_query handler_do queries closure.
Proof.
  intros i q _. unfold work, request_of. simpl.
  destruct (String.eqb (Expr q) "bad"); reflexivity.
Qed.

Lemma Downstream_results_witness :
  let queries := [qry "{app=a}"; qry "{app=b}"] in
  let acts := [SupLock; FnReturn 0; Send 0; Unlock 0;
               SupLock; FnReturn 1; Send 1; ColReturn] in
  exists s rs,
    For (zeroResult Z string Z (list string) 0%Z []) "context canceled"
        closure queries one_token acts = Some s /\
    ret s = Some (Some rs, None) /\
    length rs = length queries /\
    forall i q, queries !! i = Some q ->
      exists resp res,
        handler_do (request_of Z (list string) encode range_type with_query q)
          = (resp, None) /\
        has_error resp = false /\
        ResponseToResult Z string Z (list string) 0%Z [] resp
          = Returns (res, None) /\
        rs !! i = Some res.
Proof.
  intros queries acts.
  destruct (For (zeroResult Z string Z (list string) 0%Z []) "context canceled"
              closure queries one_token acts) as [s |] eqn:Hrun;
    [| vm_compute in Hrun; discriminate].
  assert (Hret : exists rs, ret s = Some (Some rs, None)).
  { vm_compute in Hrun. injection Hrun as <-. eexists. reflexivity. }
  destruct Hret as [rs Hret].
  exists s, rs. split; [reflexivity |]. split; [exact Hret |].
  apply (Downstream_results 0%Z [] encode range_type with_query handler_do
           "context canceled" queries closure one_token acts s rs).
  - apply closure_runs.
  - exact Hrun.
  - exact Hret.
Defined.

Lemma Downstream_all_or_nothing_witness :
  let queries := [qry "{app=a}"; qry "bad"] in
  let acts := [SupLock; FnReturn 0; Send 0; Unlock 0;
               SupLock; FnReturn 1; Send 1] in
  exists s,
    For (zeroResult Z string Z (list string) 0%Z []) "context canceled"
        closure queries one_token acts = Some s /\
    snd (handler_do (request_of Z (list string) encode range_type with_query
                       (qry "bad"))) <> None /\
    ret s = Some (None, Some "handler failed") /\
    (forall l e, ret s = Some (l, e) ->
       l = None /\
       exists msg, e = Some msg /\
         ((msg = "context canceled" /\ In ParentCancel acts) \/
          exists i q, queries !! i = Some q /\
            (snd (handler_do (request_of Z (list string) encode range_type
                                with_query q)) = Some msg \/
             exists r, ResponseToResult Z string Z (list string) 0%Z []
                         (fst (handler_do (request_of Z (list string) encode
                                             range_type with_query q)))
                       = Returns (r, Some msg)))) /\
    length acts <= 5 * length queries + 2 /\
    exists acts' s' l e,
      ~ In ParentCancel acts' /\
      For (zeroResult Z string Z (list string) 0%Z []) "context canceled"
          closure queries one_token (acts ++ acts') = Some s' /\
      ret s' = Some (l, e) /\ l = None /\ e <> None.
Proof.
  intros queries acts.
  destruct (For (zeroResult Z string Z (list string) 0%Z []) "context canceled"
              closure queries one_token acts) as [s |] eqn:Hrun;
    [| vm_compute in Hrun; discriminate].
  assert (Hret : ret s = Some (None, Some "handler failed")).
  { vm_compute in Hrun. injection Hrun as <-. reflexivity. }
  exists s. split; [reflexivity |].
  split; [simpl; discriminate |]. split; [exact Hret |].
  apply (Downstream_all_or_nothing 0%Z [] encode range_type with_query
           handler_do "context canceled" queries closure one_token 1
           (qry "bad") acts s).
  - apply closure_runs.
  - reflexivity.
  - left. simpl. discriminate.
  - simpl. lia.
  - simpl. lia.
  - exact Hrun.
Defined.
End MoreWitnesses.
